(** * viz_data_prep: the batch importer of [batch.py]

    A shallow embedding of [batch_import_movies] and of its three local
    helpers [batch_insert_data], [batch_insert_movies] and
    [batch_insert_relationships], together with the storage session they
    drive, and the properties of the importer that its specification states.

    Conventions.
    - A row of the data frame is a [MovieRecord]; a missing cell is [None]
      (the frame's missing-value marker: [None] after the [replace] of the
      critical columns, NaN/NaT elsewhere).
    - Strings are sequences of code points below 256.
    - The connection is a [session]: the committed tables, the tables as the
      open transaction sees them, and the identifier generators.
    - A storage call either returns or raises; what the storage engine does
      on its own accord (a lost connection, a disk error) is a [fault] given
      to each helper. *)

From Stdlib Require Import ZArith QArith_base List String Ascii Bool Lia.
From stdpp Require Import base option list strings gmap.

Local Open Scope string_scope.
Local Open Scope list_scope.
Local Open Scope Z_scope.

(** ** Python string primitives *)

Module Py.

(** [str.isspace] on one code point below 256. *)
Definition isspace (a : ascii) : bool :=
  let n := nat_of_ascii a in
  ((9 <=? n)%nat && (n <=? 13)%nat)
  || ((28 <=? n)%nat && (n <=? 32)%nat)
  || (n =? 133)%nat || (n =? 160)%nat.

Fixpoint lstrip (s : string) : string :=
  match s with
  | EmptyString => EmptyString
  | String a s' => if isspace a then lstrip s' else s
  end.

Fixpoint rstrip (s : string) : string :=
  match s with
  | EmptyString => EmptyString
  | String a s' =>
      match rstrip s' with
      | EmptyString => if isspace a then EmptyString else String a EmptyString
      | r => String a r
      end
  end.

(** [s.strip()] *)
Definition strip (s : string) : string := rstrip (lstrip s).

(** [s.split(sep)] for a one-character separator: always at least one
    piece, empty pieces are kept. *)
Fixpoint split (sep : ascii) (s : string) : list string :=
  match s with
  | EmptyString => [EmptyString]
  | String a s' =>
      if Ascii.eqb a sep then EmptyString :: split sep s'
      else match split sep s' with
           | [] => [String a EmptyString]
           | p :: ps => String a p :: ps
           end
  end.

(** Truth value of a cell holding [None] or a [str]. *)
Definition truthy (v : option string) : bool :=
  match v with
  | Some s => negb (String.eqb s EmptyString)
  | None => false
  end.

End Py.

Definition comma : ascii := ","%char.

(** ** The data frame *)

(** A cell of a column the importer only copies. *)
Inductive cell :=
| Null
| Int (z : Z)
| Real (q : Q)
| Text (s : string)
| Flag (b : bool).

Record Timestamp := { year : Z; month : Z; day : Z }.

(** The twelve columns copied unchanged into the movie tuple. *)
Record Columns := {
  vote_average : cell;
  vote_count : cell;
  status : cell;
  revenue : cell;
  runtime : cell;
  adult : cell;
  budget : cell;
  original_language : cell;
  original_title : cell;
  overview : cell;
  popularity : cell;
  tagline : cell
}.

(** One record of [df.to_dict(orient="records")]. [movie_id] is the column
    ["id"]; [release_date] is the column after [pd.to_datetime(...,
    errors="coerce")], [None] standing for NaT. *)
Record MovieRecord := {
  movie_id : Z;
  title : option string;
  imdb_id : option string;
  release_date : option Timestamp;
  columns : Columns;
  genres : option string;
  production_companies : option string;
  production_countries : option string;
  spoken_languages : option string;
  keywords : option string
}.

Inductive category := Genre | Company | Country | Language | Keyword.

#[global] Instance category_eq_dec : EqDecision category.
Proof. solve_decision. Defined.

Definition categories : list category :=
  [Genre; Company; Country; Language; Keyword].

(** The multi-value column of a category. *)
Definition field (c : category) (movie : MovieRecord) : option string :=
  match c with
  | Genre => genres movie
  | Company => production_companies movie
  | Country => production_countries movie
  | Language => spoken_languages movie
  | Keyword => keywords movie
  end.

(** Reference table and its unique column, join table and its entity column,
    as the call sites name them. *)
Definition table (c : category) : string :=
  match c with
  | Genre => "genres" | Company => "companies" | Country => "countries"
  | Language => "languages" | Keyword => "keywords"
  end.

Definition unique_column (c : category) : string :=
  match c with Language => "code" | _ => "name" end.

Definition join_table (c : category) : string :=
  match c with
  | Genre => "_MovieGenres" | Company => "_MovieCompanies"
  | Country => "_MovieCountries" | Language => "_MovieLanguages"
  | Keyword => "_MovieKeywords"
  end.

Definition related_column (c : category) : string :=
  match c with
  | Genre => "genre_id" | Company => "company_id" | Country => "country_id"
  | Language => "language_id" | Keyword => "keyword_id"
  end.

(** The tuple appended to [movies]: the sixteen columns of the INSERT. *)
Record MovieTuple := {
  t_id : Z;
  t_title : option string;
  t_imdb_id : option string;
  t_release_date : option Timestamp;
  t_columns : Columns
}.

Definition movie_tuple (movie : MovieRecord) : MovieTuple :=
  {| t_id := movie_id movie;
     t_title := title movie;
     t_imdb_id := imdb_id movie;
     t_release_date := release_date movie;
     t_columns := columns movie |}.

(** Lines 24-26: [df = df[df["release_date"].dt.year >= min_year]] with
    [min_year = current_year - 10]. The year of NaT is NaN, and the
    comparison with NaN is false, so a row without release date is dropped. *)
Definition recent (current_year : Z) (movie : MovieRecord) : bool :=
  match release_date movie with
  | Some d => current_year - 10 <=? year d
  | None => false
  end.

Definition recency_filter (current_year : Z) (df : list MovieRecord)
  : list MovieRecord :=
  List.filter (recent current_year) df.

(** Truth value of the release-date cell: neither Timestamp nor NaT
    defines a truth value of its own, so both are true, as any object is.
    Rows with NaT do not reach the loop in any case (see [recent]). *)
Definition truthy_date (d : option Timestamp) : bool := true.

(** Line 158, negated: the record is kept by the first pass. *)
Definition admissible (movie : MovieRecord) : bool :=
  Py.truthy (title movie) && Py.truthy (imdb_id movie)
  && truthy_date (release_date movie).

(** ** The store and the session *)

(** Outcome of a computation that may raise. *)
Inductive result (A : Type) :=
| Ok (a : A)
| Raise.
Arguments Ok {A} a.
Arguments Raise {A}.

#[global] Instance result_ret : MRet result := fun _ a => Ok a.
#[global] Instance result_bind : MBind result := fun _ _ k m =>
  match m with
  | Ok a => k a
  | Raise => Raise
  end.

(** Modelled from the spec: the schema is not part of the source. The movie
    table is keyed by the movie identifier and has a unique external
    reference code; each reference table has a generated identifier and a
    unique natural-string column; each join table has a composite uniqueness
    constraint on (movie id, entity id) and foreign keys into the movie table
    and its reference table. Rows are kept in insertion order. *)
Record database := {
  movies : list MovieTuple;
  reference : category -> list (Z * string);
  joins : category -> list (Z * Z)
}.

(** What outlives a connection: the committed tables and, per reference
    table, the next identifier its generator hands out. A generator is not
    transactional: a rollback does not give identifiers back. *)
Record store := {
  tables : database;
  generator : category -> Z
}.

(** The connection, with the cursor's transaction. *)
Record session := {
  committed : database;
  working : database;
  sequence : category -> Z
}.

(** [psycopg2.connect(...)] and [connection.cursor()], once they succeed. *)
Definition connect (st : store) : session :=
  {| committed := tables st; working := tables st; sequence := generator st |}.

(** [connection.close()]: an open transaction is discarded. *)
Definition close (s : session) : store :=
  {| tables := committed s; generator := sequence s |}.

(** One table (or generator) of a family replaced. *)
Definition update {A : Type} (c : category) (a : A) (f : category -> A)
  : category -> A :=
  fun c' => if decide (c' = c) then a else f c'.

(** The session after a statement wrote [d] in the open transaction. *)
Definition with_working (d : database) (s : session) : session :=
  {| committed := committed s; working := d; sequence := sequence s |}.

(** State of the session threaded through a computation that may raise; the
    session survives the exception, for the handler to roll it back. *)
Definition M (A : Type) : Type := session -> result A * session.

Definition ret {A : Type} (a : A) : M A := fun s => (Ok a, s).

Definition raise {A : Type} : M A := fun s => (Raise, s).

Definition bind {A B : Type} (m : M A) (k : A -> M B) : M B :=
  fun s =>
    match m s with
    | (Ok a, s') => k a s'
    | (Raise, s') => (Raise, s')
    end.

Notation "'do' x <- m ; k" := (bind m (fun x => k))
  (at level 10, x name, m at level 100, k at level 200).

(** Where the storage engine fails of its own accord during one helper call:
    at the SELECT, at the statement of one page of the bulk insert (pages
    are counted from 0), or at the commit. *)
Inductive fault :=
| NoFault
| FailRead
| FailInsert (page : nat)
| FailCommit.

#[global] Instance fault_eq_dec : EqDecision fault.
Proof. solve_decision. Defined.

Definition fails_at (f : fault) (i : nat) : bool :=
  match f with
  | FailInsert page => Nat.eqb page i
  | _ => false
  end.

(** The session once its transaction is made durable. *)
Definition persisted (s : session) : session :=
  {| committed := working s; working := working s; sequence := sequence s |}.

(** [connection.commit()] *)
Definition commit (f : fault) : M unit :=
  fun s =>
    match f with
    | FailCommit => (Raise, s)
    | _ => (Ok tt, persisted s)
    end.

(** [connection.rollback()]: the open transaction is discarded; the
    generators keep their state. *)
Definition rollback (s : session) : session :=
  {| committed := committed s; working := committed s;
     sequence := sequence s |}.

(** *** Statements *)

(** Two reference codes collide in the unique index; NULL collides with
    nothing. *)
Definition same_code (a b : option string) : bool :=
  match a, b with
  | Some x, Some y => String.eqb x y
  | _, _ => false
  end.

(** Modelled from the spec: the primary key of the movie table, which the
    source does not declare. The statement is [INSERT INTO movies (...)
    VALUES rows ON CONFLICT (imdb_id) DO NOTHING RETURNING id]: a row whose
    reference code is taken, by a row of the table or by an earlier row of
    the statement, is skipped; otherwise a row whose identifier is taken
    violates the primary key and the statement raises. *)
Fixpoint insert_movie_rows (rows : list MovieTuple) (tbl : list MovieTuple)
  : result (list MovieTuple) :=
  match rows with
  | [] => Ok tbl
  | r :: rest =>
      if existsb (fun x => same_code (t_imdb_id x) (t_imdb_id r)) tbl
      then insert_movie_rows rest tbl
      else if existsb (fun x => t_id x =? t_id r) tbl
      then Raise
      else insert_movie_rows rest (tbl ++ [r])
  end.

(** [INSERT INTO "table" (unique_column) VALUES values ON CONFLICT
    (unique_column) DO NOTHING RETURNING id, unique_column]: a value already
    in the table is skipped, any other gets the next identifier of the
    generator; the rows returned are the rows actually inserted. *)
Fixpoint insert_value_rows (values : list string) (tbl : list (Z * string))
  (next : Z) : list (Z * string) * list (Z * string) * Z :=
  match values with
  | [] => ([], tbl, next)
  | v :: rest =>
      if existsb (fun row => String.eqb row.2 v) tbl
      then insert_value_rows rest tbl next
      else
        let '(returned, tbl', next') :=
          insert_value_rows rest (tbl ++ [(next, v)]) (next + 1) in
        ((next, v) :: returned, tbl', next')
  end.

(** Modelled from the spec: the composite key and the foreign keys of a join
    table, which the source does not declare. The statement is [INSERT INTO
    "join" (movie_column, related_column) VALUES edges ON CONFLICT DO
    NOTHING]: an edge already present is skipped; otherwise an edge with an
    endpoint absent from its table violates a foreign key and the statement
    raises. *)
Fixpoint insert_edge_rows (edges : list (Z * Z)) (movie_ids entity_ids : list Z)
  (tbl : list (Z * Z)) : result (list (Z * Z)) :=
  match edges with
  | [] => Ok tbl
  | e :: rest =>
      if bool_decide (e ∈ tbl)
      then insert_edge_rows rest movie_ids entity_ids tbl
      else if bool_decide (e.1 ∈ movie_ids) && bool_decide (e.2 ∈ entity_ids)
      then insert_edge_rows rest movie_ids entity_ids (tbl ++ [e])
      else Raise
  end.

Definition insert_movies_statement (rows : list MovieTuple) : M unit :=
  fun s =>
    match insert_movie_rows rows (movies (working s)) with
    | Ok tbl =>
        (Ok tt, with_working {| movies := tbl;
                               reference := reference (working s);
                               joins := joins (working s) |} s)
    | Raise => (Raise, s)
    end.

Definition insert_values_statement (c : category) (values : list string)
  : M (list (Z * string)) :=
  fun s =>
    let '(returned, tbl, next) :=
      insert_value_rows values (reference (working s) c) (sequence s c) in
    (Ok returned,
     {| committed := committed s;
        working := {| movies := movies (working s);
                      reference := update c tbl (reference (working s));
                      joins := joins (working s) |};
        sequence := update c next (sequence s) |}).

Definition insert_edges_statement (c : category) (edges : list (Z * Z))
  : M unit :=
  fun s =>
    match insert_edge_rows edges (map t_id (movies (working s)))
            (map fst (reference (working s) c)) (joins (working s) c) with
    | Ok tbl =>
        (Ok tt, with_working {| movies := movies (working s);
                               reference := reference (working s);
                               joins := update c tbl (joins (working s)) |} s)
    | Raise => (Raise, s)
    end.

(** [cursor.execute("SELECT id, unique_column FROM table")] and
    [cursor.fetchall()]. *)
Definition select_reference (f : fault) (c : category)
  : M (list (Z * string)) :=
  fun s =>
    match f with
    | FailRead => (Raise, s)
    | _ => (Ok (reference (working s) c), s)
    end.

(** [cursor.execute("SELECT id FROM movies")] and [cursor.fetchall()]. *)
Definition select_movie_ids (f : fault) : M (list Z) :=
  fun s =>
    match f with
    | FailRead => (Raise, s)
    | _ => (Ok (map t_id (movies (working s))), s)
    end.

(** *** [psycopg2.extras.execute_values] *)

(** [_paginate(seq, page_size)]: consecutive pages of [page_size] items, the
    last one possibly shorter. With [page_size = 0] the generator yields
    empty pages without end; only the first is ever consumed (see
    [run_pages]). *)
Fixpoint pages_of {A : Type} (fuel : nat) (page_size : nat) (l : list A)
  : list (list A) :=
  match fuel with
  | O => []
  | S fuel' =>
      match l with
      | [] => []
      | _ => take page_size l :: pages_of fuel' page_size (drop page_size l)
      end
  end.

Definition paginate {A : Type} (l : list A) (page_size : nat)
  : list (list A) :=
  match page_size with
  | O => [[]]
  | _ => pages_of (length l) page_size l
  end.

(** One statement per page. With [template=None] the template is computed
    from [page[0]], which raises IndexError on an empty page. The cursor is
    left on the result of the last statement executed: without [fetch=True]
    the results of the earlier pages are gone. *)
Fixpoint run_pages {A R : Type} (statement : list A -> M R) (f : fault)
  (i : nat) (pages : list (list A)) (cursor : R) : M R :=
  match pages with
  | [] => ret cursor
  | page :: rest =>
      match page with
      | [] => raise
      | _ =>
          if fails_at f i then raise
          else do r <- statement page; run_pages statement f (S i) rest r
      end
  end.

Definition execute_values {A R : Type} (statement : list A -> M R)
  (f : fault) (argslist : list A) (page_size : nat) (cursor : R) : M R :=
  run_pages statement f 0 (paginate argslist page_size) cursor.

(** ** The three helpers *)

Definition merge_rows (id_mapping : gmap string Z) (rows : list (Z * string))
  : gmap string Z :=
  foldl (fun m row => <[row.2 := row.1]> m) id_mapping rows.

(** [[(value,) for value in data if value not in id_mapping]]. The order in
    which Python walks a set is not specified; the set is walked here in the
    order of [elements], and no general property below depends on it. *)
Definition new_values (data : gset string) (id_mapping : gmap string Z)
  : list string :=
  List.filter (fun value => bool_decide (id_mapping !! value = None))
              (elements data).

(** [batch_insert_data(data, table, unique_column)]. [id_mapping] is filled
    as the body proceeds and returned whether or not the body raised. *)
Definition batch_insert_data (batch_size : nat) (f : fault)
  (data : gset string) (c : category) (s : session)
  : gmap string Z * session :=
  let id_mapping : gmap string Z := ∅ in
  match select_reference f c s with
  | (Raise, s1) => (id_mapping, rollback s1)
  | (Ok rows, s1) =>
      let id_mapping := merge_rows id_mapping rows in
      let new_values := new_values data id_mapping in
      match new_values with
      | [] => (id_mapping, s1)
      | _ =>
          match (do returned <- execute_values (insert_values_statement c) f
                                  new_values batch_size [];
                 do _ <- commit f;
                 ret returned) s1 with
          | (Raise, s2) => (id_mapping, rollback s2)
          | (Ok returned, s2) => (merge_rows id_mapping returned, s2)
          end
      end
  end.

(** [batch_insert_movies(movies)]. *)
Definition batch_insert_movies (batch_size : nat) (f : fault)
  (movies : list MovieTuple) (s : session) : gset Z * session :=
  match (do _ <- execute_values insert_movies_statement f movies batch_size tt;
         do _ <- commit f;
         select_movie_ids f) s with
  | (Raise, s') => (∅, rollback s')
  | (Ok ids, s') => (list_to_set ids, s')
  end.

(** [batch_insert_relationships(relationships, table, movie_column,
    related_column, valid_movie_ids)]. *)
Definition batch_insert_relationships (batch_size : nat) (f : fault)
  (relationships : list (Z * Z)) (c : category) (valid_movie_ids : gset Z)
  (s : session) : session :=
  let relationships :=
    List.filter (fun rel => bool_decide (rel.1 ∈ valid_movie_ids))
                relationships in
  match (do _ <- execute_values (insert_edges_statement c) f relationships
                   batch_size tt;
         commit f) s with
  | (Raise, s') => rollback s'
  | (Ok _, s') => s'
  end.

(** ** The importer *)

(** State of the first loop: the movie tuples and the five accumulators. *)
Record collected := {
  movies_list : list MovieTuple;
  all_values : category -> gset string
}.

(** [all_x.update(p.strip() for p in movie[column].split(","))], guarded
    by [pd.notna(movie[column])]. *)
Definition collect_field (c : category) (movie : MovieRecord)
  (acc : gset string) : gset string :=
  match field c movie with
  | Some v => acc ∪ list_to_set (map Py.strip (Py.split comma v))
  | None => acc
  end.

(** Body of the loop of lines 157-204. *)
Definition collect_step (st : collected) (movie : MovieRecord) : collected :=
  if negb (admissible movie) then st
  else {| movies_list := movies_list st ++ [movie_tuple movie];
          all_values := fun c => collect_field c movie (all_values st c) |}.

Definition collect (df : list MovieRecord) : collected :=
  foldl collect_step {| movies_list := []; all_values := fun _ => ∅ |} df.

(** [ids[key]]: KeyError when the key is absent. *)
Definition subscript (ids : gmap string Z) (key : string) : result Z :=
  match ids !! key with
  | Some v => Ok v
  | None => Raise
  end.

(** The generator
    [((movie["id"], ids[p.strip()]) for p in pieces if p.strip() in ids)]. *)
Fixpoint generate_edges (id : Z) (ids : gmap string Z) (pieces : list string)
  : result (list (Z * Z)) :=
  match pieces with
  | [] => Ok []
  | p :: rest =>
      if bool_decide (Py.strip p ∈ dom ids)
      then e ← subscript ids (Py.strip p);
           es ← generate_edges id ids rest;
           Ok ((id, e) :: es)
      else generate_edges id ids rest
  end.

(** [x_relationships.extend(...)], guarded by [pd.notna(movie[column])]. *)
Definition extend_relationships (c : category) (ids : gmap string Z)
  (movie : MovieRecord) (relationships : list (Z * Z))
  : result (list (Z * Z)) :=
  match field c movie with
  | Some v =>
      es ← generate_edges (movie_id movie) ids (Py.split comma v);
      Ok (relationships ++ es)
  | None => Ok relationships
  end.

Definition by_category {A : Type} (g co cu l k : A) (c : category) : A :=
  match c with
  | Genre => g | Company => co | Country => cu | Language => l | Keyword => k
  end.

(** Body of the loop of lines 217-249. *)
Definition relationship_step (ids : category -> gmap string Z)
  (rels : category -> list (Z * Z)) (movie : MovieRecord)
  : result (category -> list (Z * Z)) :=
  g ← extend_relationships Genre (ids Genre) movie (rels Genre);
  co ← extend_relationships Company (ids Company) movie (rels Company);
  cu ← extend_relationships Country (ids Country) movie (rels Country);
  l ← extend_relationships Language (ids Language) movie (rels Language);
  k ← extend_relationships Keyword (ids Keyword) movie (rels Keyword);
  Ok (by_category g co cu l k).

Fixpoint build_relationships (ids : category -> gmap string Z)
  (rels : category -> list (Z * Z)) (df : list MovieRecord)
  : result (category -> list (Z * Z)) :=
  match df with
  | [] => Ok rels
  | movie :: rest =>
      rels' ← relationship_step ids rels movie;
      build_relationships ids rels' rest
  end.

(** The storage faults of one run: one per helper call. *)
Record faults := {
  movies_fault : fault;
  data_fault : category -> fault;
  relationships_fault : category -> fault
}.

Definition no_faults : faults :=
  {| movies_fault := NoFault;
     data_fault := fun _ => NoFault;
     relationships_fault := fun _ => NoFault |}.

(** What a run computes on its way, and the store it leaves. *)
Record run := {
  frame : list MovieRecord;
  prepared : collected;
  valid_movie_ids : gset Z;
  id_mappings : category -> gmap string Z;
  relationships : result (category -> list (Z * Z));
  linking : session;
  outcome : store
}.

(** [batch_import_movies] from line 24 on, once connected: [raw] is the
    frame after the coercions of lines 19-21, each record carrying its
    revenue and budget cells as lines 29-30 rescale them (the rescaling
    touches no cell the filter reads); [current_year] is
    [datetime.now().year]. [linking] is the session when the relationship
    inserts start. *)
Definition batch_import_movies (current_year : Z) (batch_size : nat)
  (fl : faults) (raw : list MovieRecord) (st : store) : run :=
  let df := recency_filter current_year raw in
  let s := connect st in
  let p := collect df in
  let '(valid, s) :=
    batch_insert_movies batch_size (movies_fault fl) (movies_list p) s in
  let '(genre_ids, s) :=
    batch_insert_data batch_size (data_fault fl Genre)
      (all_values p Genre) Genre s in
  let '(company_ids, s) :=
    batch_insert_data batch_size (data_fault fl Company)
      (all_values p Company) Company s in
  let '(country_ids, s) :=
    batch_insert_data batch_size (data_fault fl Country)
      (all_values p Country) Country s in
  let '(language_ids, s) :=
    batch_insert_data batch_size (data_fault fl Language)
      (all_values p Language) Language s in
  let '(keyword_ids, s) :=
    batch_insert_data batch_size (data_fault fl Keyword)
      (all_values p Keyword) Keyword s in
  let ids :=
    by_category genre_ids company_ids country_ids language_ids keyword_ids in
  let rels := build_relationships ids (fun _ => []) df in
  let s' :=
    match rels with
    | Ok r =>
        let s7 := batch_insert_relationships batch_size
                    (relationships_fault fl Genre) (r Genre) Genre valid s in
        let s8 := batch_insert_relationships batch_size
                    (relationships_fault fl Company) (r Company) Company
                    valid s7 in
        let s9 := batch_insert_relationships batch_size
                    (relationships_fault fl Country) (r Country) Country
                    valid s8 in
        let s10 := batch_insert_relationships batch_size
                     (relationships_fault fl Language) (r Language) Language
                     valid s9 in
        batch_insert_relationships batch_size
          (relationships_fault fl Keyword) (r Keyword) Keyword valid s10
    | Raise => rollback s
    end in
  {| frame := df;
     prepared := p;
     valid_movie_ids := valid;
     id_mappings := ids;
     relationships := rels;
     linking := s;
     outcome := close s' |}.

Definition empty_store : store :=
  {| tables := {| movies := []; reference := fun _ => []; joins := fun _ => [] |};
     generator := fun _ => 1 |}.

(** ** Sessions between helper calls *)

(** No write is pending: the transaction sees what is committed. *)
Definition clean (s : session) : Prop := working s = committed s.

(** The mapping seeded by the read of step 1. *)
Definition seeded (c : category) (s : session) : gmap string Z :=
  merge_rows ∅ (reference (working s) c).

(** ** Vocabulary of the properties *)

(** The five relationship inserts of lines 252-282 as one fold over the
    categories: the session they leave, from the session they start in (see
    [run_outcome]). *)
Definition link_all (bs : nat) (fl : faults) (valid : gset Z)
  (r : category -> list (Z * Z)) (s : session) : session :=
  foldl (fun s c =>
           batch_insert_relationships bs (relationships_fault fl c) (r c) c
             valid s)
        s categories.

(** Rows are appended, each one sent by the caller and with a reference
    code that no earlier row of the table has. *)
Definition appended (ms tbl tbl' : list MovieTuple) : Prop :=
  exists extra,
    tbl' = tbl ++ extra
    /\ forall r, r ∈ extra ->
         r ∈ ms
         /\ forall x, x ∈ tbl -> same_code (t_imdb_id x) (t_imdb_id r) = false.

(** The edges of a list of mentions, of a record and of the frame, as plain
    list functions. *)
Definition mention_edges (id : Z) (ids : gmap string Z)
  (pieces : list string) : list (Z * Z) :=
  omap (fun p => (fun e => (id, e)) <$> ids !! Py.strip p) pieces.

Definition record_edges (c : category) (ids : gmap string Z)
  (movie : MovieRecord) : list (Z * Z) :=
  match field c movie with
  | Some v => mention_edges (movie_id movie) ids (Py.split comma v)
  | None => []
  end.

Definition category_edges (c : category) (ids : gmap string Z)
  (df : list MovieRecord) : list (Z * Z) :=
  flat_map (record_edges c ids) df.

(** The addition to an accumulator as the specification words it: the
    non-empty trimmed pieces of a present field. *)
Definition spec_collect_field (c : category) (movie : MovieRecord)
  (acc : gset string) : gset string :=
  match field c movie with
  | Some v =>
      acc ∪ list_to_set
              (List.filter (fun x => negb (String.eqb x ""))
                 (map Py.strip (Py.split comma v)))
  | None => acc
  end.

(** Two sessions between helper calls that hold the same movie table and,
    outside category [c], the same reference tables, join tables and
    generators. *)
Definition agree (c : category) (s1 s2 : session) : Prop :=
  clean s1 /\ clean s2
  /\ movies (committed s1) = movies (committed s2)
  /\ forall c', c' <> c ->
       reference (committed s1) c' = reference (committed s2) c'
       /\ joins (committed s1) c' = joins (committed s2) c'
       /\ sequence s1 c' = sequence s2 c'.

(** Two runs on the same frame and store whose faults differ in category
    [c] only. *)
Definition same_faults_but (c : category) (fl1 fl2 : faults) : Prop :=
  movies_fault fl1 = movies_fault fl2
  /\ forall c0, c0 <> c ->
       data_fault fl1 c0 = data_fault fl2 c0
       /\ relationships_fault fl1 c0 = relationships_fault fl2 c0.

(** The body of a resolution raises: at the read, or, when there is
    something to insert, at a page of the bulk insert or at the commit. *)
Definition resolution_raises (bs : nat) (f : fault) (data : gset string)
  (c : category) (s : session) : Prop :=
  f = FailRead
  \/ (new_values data (seeded c s) <> []
      /\ exists r s1,
           execute_values (insert_values_statement c) f
             (new_values data (seeded c s)) bs [] s = (r, s1)
           /\ (r = Raise \/ f = FailCommit)).

(** The uniqueness constraints of the tables: movie identifiers, reference
    codes (NULL apart), the natural-string column of each reference table,
    and the edges of each join table. *)
Definition well_keyed (d : database) : Prop :=
  NoDup (map t_id (movies d))
  /\ NoDup (omap t_imdb_id (movies d))
  /\ forall c, NoDup (map snd (reference d c)) /\ NoDup (joins d c).

(** ** Sample inputs *)

(** Copied columns of no interest. *)
Definition blank : Columns :=
  {| vote_average := Null; vote_count := Null; status := Null;
     revenue := Null; runtime := Null; adult := Flag false; budget := Null;
     original_language := Text "en"; original_title := Null;
     overview := Null; popularity := Null; tagline := Null |}.

(** A record released in 2020 with the given identifier, title, reference
    code, genres and keywords. *)
Definition sample (id : Z) (t code : option string) (g k : option string)
  : MovieRecord :=
  {| movie_id := id; title := t; imdb_id := code;
     release_date := Some {| year := 2020; month := 5; day := 17 |};
     columns := blank; genres := g; production_companies := None;
     production_countries := None; spoken_languages := None;
     keywords := k |}.

(** An admissible record with two genres and a keyword field that has an
    empty piece. *)
Definition heat : MovieRecord :=
  sample 1 (Some "Heat") (Some "tt0113277") (Some "Action, Drama")
         (Some "heist,,crime ").

(** A record without title that carries the identifier of [heat]. *)
Definition untitled : MovieRecord :=
  sample 1 None (Some "tt0000001") (Some "Drama,Noir") None.

(** The storage engine fails at the first page of the movie insert. *)
Definition movies_down : faults :=
  {| movies_fault := FailInsert 0;
     data_fault := fun _ => NoFault;
     relationships_fault := fun _ => NoFault |}.

(** A store that already holds [heat] and its genres. *)
Definition loaded : store :=
  outcome (batch_import_movies 2025 1000 no_faults [heat] empty_store).

(** The storage engine fails at the first page of the genre insert. *)
Definition genres_down : faults :=
  {| movies_fault := NoFault;
     data_fault := fun c => match c with Genre => FailInsert 0 | _ => NoFault end;
     relationships_fault := fun _ => NoFault |}.

(** A second film, with a genre and keywords the store [loaded] lacks. *)
Definition alien : MovieRecord :=
  sample 2 (Some "Alien") (Some "tt0078748") (Some "Horror") (Some "space").

(** Three records: two admissible films and a record without title that
    carries the identifier of the first and the genre of the second. *)
Definition alpha : MovieRecord :=
  sample 1 (Some "Alpha") (Some "tt0000011") (Some "Action") None.

Definition beta : MovieRecord :=
  sample 2 (Some "Beta") (Some "tt0000012") (Some "Drama") None.

Definition stray : MovieRecord :=
  sample 1 None (Some "tt0000013") (Some "Drama") None.

Definition two_genres : gset string := {[ "Action"; "Drama" ]}.

(** [heat] imported into the empty store with a page size of one, and
    imported again into the store the first run leaves. *)
Definition first_run : run :=
  batch_import_movies 2025 1 no_faults [heat] empty_store.

Definition second_run : run :=
  batch_import_movies 2025 1 no_faults [heat] (outcome first_run).

(** A store that holds [heat] and [alien] with their genres (Action 1,
    Drama 2, Horror 3), and a frame of two records that both carry the
    identifier of [heat]: an admissible one with a new reference code, whose
    insertion violates the primary key of the movie table, and one without
    title whose genre is in the store. *)
Definition two_films : store :=
  outcome (batch_import_movies 2025 1000 no_faults [heat; alien] empty_store).

Definition clash : MovieRecord :=
  sample 1 (Some "Heat 2") (Some "tt0000021") None None.

Definition stray_horror : MovieRecord :=
  sample 1 None (Some "tt0000022") (Some "Horror") None.

(** * Properties *)

(** ** Lists *)

Lemma elem_of_map {A B : Type} (f : A -> B) (l : list A) (y : B) :
  y ∈ map f l <-> exists x, y = f x /\ x ∈ l.
Proof.
  rewrite list_elem_of_In, in_map_iff. split; intros (x & H1 & H2); exists x.
  - split; [congruence | apply list_elem_of_In, H2].
  - split; [congruence | apply list_elem_of_In, H2].
Qed.

Lemma elem_of_List_filter {A : Type} (p : A -> bool) (l : list A) (x : A) :
  x ∈ List.filter p l <-> x ∈ l /\ p x = true.
Proof. rewrite !list_elem_of_In. apply filter_In. Qed.

(** ** Paging *)

Section Paging.
Context {A : Type}.

Lemma pages_of_concat (page_size : nat) :
  (0 < page_size)%nat ->
  forall (fuel : nat) (l : list A),
    (length l <= fuel)%nat -> concat (pages_of fuel page_size l) = l.
Proof.
  intros Hps. induction fuel as [|fuel IH]; intros l Hl.
  - destruct l; simpl in *; [reflexivity | lia].
  - destruct l as [|a l']; [reflexivity|].
    cbn [pages_of concat]. rewrite IH.
    + apply take_drop.
    + rewrite length_drop. simpl in *. lia.
Qed.

Lemma pages_of_nonempty (page_size : nat) :
  (0 < page_size)%nat ->
  forall (fuel : nat) (l : list A) (page : list A),
    page ∈ pages_of fuel page_size l -> page <> [].
Proof.
  intros Hps. induction fuel as [|fuel IH]; intros l page Hin.
  - inversion Hin.
  - destruct l as [|a l']; [inversion Hin|].
    cbn [pages_of] in Hin. apply elem_of_cons in Hin as [-> | Hin].
    + destruct page_size; [lia | discriminate].
    + eapply IH, Hin.
Qed.

Lemma pages_of_length (page_size : nat) :
  forall (fuel : nat) (l : list A) (page : list A),
    page ∈ pages_of fuel page_size l -> (length page <= page_size)%nat.
Proof.
  induction fuel as [|fuel IH]; intros l page Hin.
  - inversion Hin.
  - destruct l as [|a l']; [inversion Hin|].
    cbn [pages_of] in Hin. apply elem_of_cons in Hin as [-> | Hin].
    + rewrite length_take. lia.
    + eapply IH, Hin.
Qed.

Lemma paginate_concat (l : list A) (page_size : nat) :
  (0 < page_size)%nat -> concat (paginate l page_size) = l.
Proof.
  intros Hps. unfold paginate. destruct page_size; [lia|].
  apply pages_of_concat; lia.
Qed.

Lemma paginate_nonempty (l : list A) (page_size : nat) (page : list A) :
  (0 < page_size)%nat -> page ∈ paginate l page_size -> page <> [].
Proof.
  intros Hps. unfold paginate. destruct page_size; [lia|].
  apply pages_of_nonempty. lia.
Qed.

Lemma paginate_elem (l : list A) (page_size : nat) (page : list A) (a : A) :
  page ∈ paginate l page_size -> a ∈ page -> a ∈ l.
Proof.
  intros Hp Ha. destruct page_size as [|n].
  - cbn in Hp. apply list_elem_of_singleton in Hp. subst page.
    inversion Ha.
  - rewrite <- (paginate_concat l (S n)) by lia.
    apply list_elem_of_In, in_concat. exists page.
    split; apply list_elem_of_In; assumption.
Qed.

Lemma paginate_nil (page_size : nat) :
  (0 < page_size)%nat -> paginate (@nil A) page_size = [].
Proof. destruct page_size; [lia | reflexivity]. Qed.

End Paging.

(** A property of the session that every statement keeps, whether it
    returns or raises, is kept by the paged execution. *)
Lemma run_pages_invariant {A R : Type} (statement : list A -> M R)
  (I : session -> Prop) :
  forall f pages,
    (forall page s r s',
        page ∈ pages -> I s -> statement page s = (r, s') -> I s') ->
    forall i cursor s r s',
      I s -> run_pages statement f i pages cursor s = (r, s') -> I s'.
Proof.
  intros f pages. induction pages as [|page rest IH];
    intros Hst i cursor s r s' HI Hrun.
  - cbn in Hrun. injection Hrun as <- <-. exact HI.
  - cbn [run_pages] in Hrun. destruct page as [|a page].
    + injection Hrun as <- <-. exact HI.
    + destruct (fails_at f i).
      * injection Hrun as <- <-. exact HI.
      * unfold bind in Hrun.
        assert (Hin : (a :: page) ∈ (a :: page) :: rest)
          by (apply elem_of_cons; left; reflexivity).
        destruct (statement (a :: page) s) as [[r1|] s1] eqn:E.
        -- eapply IH; [| | exact Hrun].
           ++ intros page' x r0 x' Hp. apply Hst, elem_of_cons. right. exact Hp.
           ++ eapply Hst; eauto.
        -- injection Hrun as <- <-. eapply Hst; eauto.
Qed.

Lemma execute_values_nil {A R : Type} (statement : list A -> M R) f
  (page_size : nat) cursor s :
  (0 < page_size)%nat ->
  execute_values statement f [] page_size cursor s = (Ok cursor, s).
Proof.
  intros Hps. unfold execute_values. rewrite paginate_nil by exact Hps.
  reflexivity.
Qed.

Lemma execute_values_zero {A R : Type} (statement : list A -> M R) f
  (argslist : list A) cursor s :
  execute_values statement f argslist 0 cursor s = (Raise, s).
Proof. reflexivity. Qed.

(** ** What a statement leaves alone *)

Lemma insert_movies_statement_frame rows s r s' :
  insert_movies_statement rows s = (r, s') ->
  committed s' = committed s /\ sequence s' = sequence s
  /\ reference (working s') = reference (working s)
  /\ joins (working s') = joins (working s).
Proof.
  unfold insert_movies_statement. intros H.
  destruct (insert_movie_rows rows (movies (working s)));
    injection H as <- <-; auto.
Qed.

Lemma insert_values_statement_frame c values s r s' :
  insert_values_statement c values s = (r, s') ->
  committed s' = committed s
  /\ movies (working s') = movies (working s)
  /\ joins (working s') = joins (working s)
  /\ forall c', c' <> c ->
       reference (working s') c' = reference (working s) c'
       /\ sequence s' c' = sequence s c'.
Proof.
  unfold insert_values_statement. intros H.
  destruct (insert_value_rows values (reference (working s) c) (sequence s c))
    as [[returned tbl] next].
  injection H as <- <-. cbn. repeat split; auto;
    unfold update; destruct (decide (c' = c)); congruence.
Qed.

Lemma insert_edges_statement_frame c edges s r s' :
  insert_edges_statement c edges s = (r, s') ->
  committed s' = committed s /\ sequence s' = sequence s
  /\ movies (working s') = movies (working s)
  /\ reference (working s') = reference (working s)
  /\ forall c', c' <> c -> joins (working s') c' = joins (working s) c'.
Proof.
  unfold insert_edges_statement. intros H.
  destruct (insert_edge_rows edges _ _ _);
    injection H as <- <-; cbn; repeat split; auto.
  intros c' Hc. unfold update. destruct (decide (c' = c)); congruence.
Qed.

(** ** What a helper leaves alone *)

Lemma movie_pages_frame bs f ms cursor s r s1 :
  execute_values insert_movies_statement f ms bs cursor s = (r, s1) ->
  committed s1 = committed s /\ sequence s1 = sequence s
  /\ reference (working s1) = reference (working s)
  /\ joins (working s1) = joins (working s).
Proof.
  intros H.
  apply (run_pages_invariant insert_movies_statement
           (fun x => committed x = committed s /\ sequence x = sequence s
                     /\ reference (working x) = reference (working s)
                     /\ joins (working x) = joins (working s)))
    in H; auto.
  intros page x r0 x' _ (H1 & H2 & H3 & H4) Hst.
  apply insert_movies_statement_frame in Hst as (? & ? & ? & ?).
  repeat split; congruence.
Qed.

Lemma value_pages_frame c bs f values cursor s r s1 :
  execute_values (insert_values_statement c) f values bs cursor s = (r, s1) ->
  committed s1 = committed s
  /\ movies (working s1) = movies (working s)
  /\ joins (working s1) = joins (working s)
  /\ forall c', c' <> c ->
       reference (working s1) c' = reference (working s) c'
       /\ sequence s1 c' = sequence s c'.
Proof.
  intros H.
  apply (run_pages_invariant (insert_values_statement c)
           (fun x => committed x = committed s
                     /\ movies (working x) = movies (working s)
                     /\ joins (working x) = joins (working s)
                     /\ forall c', c' <> c ->
                          reference (working x) c' = reference (working s) c'
                          /\ sequence x c' = sequence s c'))
    in H; auto.
  intros page x r0 x' _ (H1 & H2 & H3 & H4) Hst.
  apply insert_values_statement_frame in Hst as (? & ? & ? & Hc).
  do 3 (split; [congruence|]).
  intros c' Hne. destruct (Hc c' Hne), (H4 c' Hne). split; congruence.
Qed.

Lemma edge_pages_frame c bs f edges cursor s r s1 :
  execute_values (insert_edges_statement c) f edges bs cursor s = (r, s1) ->
  committed s1 = committed s /\ sequence s1 = sequence s
  /\ movies (working s1) = movies (working s)
  /\ reference (working s1) = reference (working s)
  /\ forall c', c' <> c -> joins (working s1) c' = joins (working s) c'.
Proof.
  intros H.
  apply (run_pages_invariant (insert_edges_statement c)
           (fun x => committed x = committed s /\ sequence x = sequence s
                     /\ movies (working x) = movies (working s)
                     /\ reference (working x) = reference (working s)
                     /\ forall c', c' <> c ->
                          joins (working x) c' = joins (working s) c'))
    in H; auto.
  intros page x r0 x' _ (H1 & H2 & H3 & H4 & H5) Hst.
  apply insert_edges_statement_frame in Hst as (? & ? & ? & ? & Hc).
  repeat split; try congruence.
  intros c' Hne. rewrite (Hc c' Hne). auto.
Qed.

Lemma batch_insert_movies_frame bs f ms s valid s' :
  batch_insert_movies bs f ms s = (valid, s') ->
  clean s ->
  clean s' /\ sequence s' = sequence s
  /\ reference (committed s') = reference (committed s)
  /\ joins (committed s') = joins (committed s).
Proof.
  unfold batch_insert_movies, bind, clean. intros H Hc.
  destruct (execute_values insert_movies_statement f ms bs tt s)
    as [[[]|] s1] eqn:E;
    apply movie_pages_frame in E as (E1 & E2 & E3 & E4);
    rewrite Hc in E3, E4.
  - unfold commit, select_movie_ids in H.
    destruct f; injection H as <- <-; cbn; repeat split; congruence.
  - injection H as <- <-. cbn. repeat split; congruence.
Qed.

(** The ways through [batch_insert_data]: the read raises; nothing is new;
    the bulk insert or the commit raises; all of it returns. *)
Lemma batch_insert_data_cases bs f data c s m s' :
  batch_insert_data bs f data c s = (m, s') ->
  (f = FailRead /\ m = ∅ /\ s' = rollback s)
  \/ (f <> FailRead /\ new_values data (seeded c s) = []
      /\ m = seeded c s /\ s' = s)
  \/ (f <> FailRead /\ new_values data (seeded c s) <> [] /\
      exists r s1,
        execute_values (insert_values_statement c) f
          (new_values data (seeded c s)) bs [] s = (r, s1)
        /\ ((m = seeded c s /\ s' = rollback s1
             /\ (r = Raise \/ f = FailCommit))
            \/ (exists returned, r = Ok returned /\ f <> FailCommit
                 /\ m = merge_rows (seeded c s) returned
                 /\ s' = persisted s1))).
Proof.
  unfold batch_insert_data, select_reference. intros H.
  set (m0 := seeded c s).
  destruct (decide (f = FailRead)) as [-> | Hr].
  { injection H as <- <-. left. auto. }
  right.
  assert (Hsel : (match f with
                  | FailRead => (Raise, s)
                  | _ => (Ok (reference (working s) c), s)
                  end) = (Ok (reference (working s) c), s))
    by (destruct f; congruence).
  rewrite Hsel in H. change (merge_rows ∅ (reference (working s) c)) with m0 in H.
  destruct (new_values data m0) as [|v vs] eqn:Enew.
  { injection H as <- <-. left. auto. }
  right. split; [exact Hr|]. split; [discriminate|].
  unfold bind in H.
  destruct (execute_values (insert_values_statement c) f (v :: vs) bs [] s)
    as [[returned|] s1] eqn:E.
  - exists (Ok returned), s1. split; [reflexivity|].
    unfold commit in H. destruct (decide (f = FailCommit)) as [-> | Hcm].
    + injection H as <- <-. left. auto.
    + right. exists returned.
      assert (Hcom : (match f with
                      | FailCommit => (Raise, s1)
                      | _ => (Ok tt, persisted s1)
                      end) = (Ok tt, persisted s1))
        by (destruct f; congruence).
      rewrite Hcom in H. cbn in H. injection H as <- <-. auto.
  - exists Raise, s1. split; [reflexivity|].
    injection H as <- <-. left. auto.
Qed.

Lemma batch_insert_data_frame bs f data c s m s' :
  batch_insert_data bs f data c s = (m, s') ->
  clean s ->
  clean s'
  /\ movies (committed s') = movies (committed s)
  /\ joins (committed s') = joins (committed s)
  /\ forall c', c' <> c ->
       reference (committed s') c' = reference (committed s) c'
       /\ sequence s' c' = sequence s c'.
Proof.
  intros H Hc. unfold clean in *.
  apply batch_insert_data_cases in H
    as [(_ & _ & ->) | [(_ & _ & _ & ->) | (_ & _ & r & s1 & E & H)]].
  - cbn. auto.
  - auto.
  - apply value_pages_frame in E as (E1 & E2 & E3 & E4).
    rewrite Hc in E2, E3.
    destruct H as [(_ & -> & _) | (returned & _ & _ & _ & ->)]; cbn.
    + rewrite E1. repeat split; auto. apply E4, H.
    + repeat split; auto; destruct (E4 c' H); rewrite <- ?Hc; congruence.
Qed.

(** The ways through [batch_insert_movies]. *)
Lemma batch_insert_movies_cases bs f ms s valid s' :
  batch_insert_movies bs f ms s = (valid, s') ->
  exists r s1,
    execute_values insert_movies_statement f ms bs tt s = (r, s1)
    /\ ((r = Raise /\ valid = ∅ /\ s' = rollback s1)
        \/ (r = Ok tt /\ f = FailCommit /\ valid = ∅ /\ s' = rollback s1)
        \/ (r = Ok tt /\ f = FailRead /\ valid = ∅
            /\ s' = rollback (persisted s1))
        \/ (r = Ok tt /\ f <> FailCommit /\ f <> FailRead
            /\ valid = list_to_set (map t_id (movies (working s1)))
            /\ s' = persisted s1)).
Proof.
  unfold batch_insert_movies, bind. intros H.
  destruct (execute_values insert_movies_statement f ms bs tt s)
    as [[[]|] s1] eqn:E.
  - exists (Ok tt), s1. split; [reflexivity|].
    unfold commit, select_movie_ids in H.
    destruct f; injection H as <- <-;
      solve [ right; left; auto
            | right; right; left; auto
            | right; right; right; repeat split; auto; discriminate ].
  - exists Raise, s1. split; [reflexivity|].
    injection H as <- <-. left. auto.
Qed.

(** The ways through [batch_insert_relationships]. *)
Lemma batch_insert_relationships_cases bs f rels c valid s :
  exists r s1,
    execute_values (insert_edges_statement c) f
      (List.filter (fun rel => bool_decide (rel.1 ∈ valid)) rels) bs tt s
    = (r, s1)
    /\ ((batch_insert_relationships bs f rels c valid s = rollback s1
         /\ (r = Raise \/ f = FailCommit))
        \/ (r = Ok tt /\ f <> FailCommit
            /\ batch_insert_relationships bs f rels c valid s = persisted s1)).
Proof.
  unfold batch_insert_relationships, bind.
  destruct (execute_values (insert_edges_statement c) f _ bs tt s)
    as [[[]|] s1] eqn:E.
  - exists (Ok tt), s1. split; [reflexivity|].
    unfold commit. destruct f;
      solve [ left; auto | right; repeat split; auto; discriminate ].
  - exists Raise, s1. split; [reflexivity|]. left. auto.
Qed.

Lemma batch_insert_relationships_frame bs f rels c valid s :
  clean s ->
  let s' := batch_insert_relationships bs f rels c valid s in
  clean s' /\ sequence s' = sequence s
  /\ movies (committed s') = movies (committed s)
  /\ reference (committed s') = reference (committed s)
  /\ forall c', c' <> c -> joins (committed s') c' = joins (committed s) c'.
Proof.
  intros Hc s'. unfold clean in *.
  destruct (batch_insert_relationships_cases bs f rels c valid s)
    as (r & s1 & E & H).
  apply edge_pages_frame in E as (E1 & E2 & E3 & E4 & E5).
  rewrite Hc in E3, E4.
  subst s'. destruct H as [(-> & _) | (_ & _ & ->)]; cbn.
  - rewrite E1. repeat split; auto.
  - repeat split; auto. intros c' Hne. rewrite (E5 c' Hne), Hc. auto.
Qed.

Lemma filter_no_valid (valid : gset Z) (rels : list (Z * Z)) :
  valid = ∅ ->
  List.filter (fun rel => bool_decide (rel.1 ∈ valid)) rels = [].
Proof.
  intros ->. induction rels as [|rel rels IH]; [reflexivity|].
  cbn [List.filter]. rewrite bool_decide_eq_false_2 by set_solver.
  exact IH.
Qed.

(** With no valid movie identifier nothing is sent, whatever the edges. *)
Lemma batch_insert_relationships_gated bs f rels c (valid : gset Z) s :
  valid = ∅ ->
  clean s ->
  committed (batch_insert_relationships bs f rels c valid s) = committed s.
Proof.
  intros Hv Hc. unfold clean in Hc.
  destruct (batch_insert_relationships_cases bs f rels c valid s)
    as (r & s1 & E & H).
  rewrite (filter_no_valid valid rels Hv) in E.
  destruct bs as [|bs].
  - rewrite execute_values_zero in E. injection E as <- <-.
    destruct H as [(-> & _) | (? & _)]; [reflexivity | discriminate].
  - rewrite execute_values_nil in E by lia. injection E as <- <-.
    destruct H as [(-> & _) | (_ & _ & ->)]; cbn; auto.
Qed.

(** ** The run, step by step *)

(** The helper calls of a run, in the order of lines 207-214. *)
Lemma run_steps cy bs fl raw st :
  let r := batch_import_movies cy bs fl raw st in
  let df := recency_filter cy raw in
  let p := collect df in
  exists s1 g s2 co s3 cu s4 l s5 k,
    batch_insert_movies bs (movies_fault fl) (movies_list p) (connect st)
    = (valid_movie_ids r, s1)
    /\ batch_insert_data bs (data_fault fl Genre) (all_values p Genre)
         Genre s1 = (g, s2)
    /\ batch_insert_data bs (data_fault fl Company) (all_values p Company)
         Company s2 = (co, s3)
    /\ batch_insert_data bs (data_fault fl Country) (all_values p Country)
         Country s3 = (cu, s4)
    /\ batch_insert_data bs (data_fault fl Language) (all_values p Language)
         Language s4 = (l, s5)
    /\ batch_insert_data bs (data_fault fl Keyword) (all_values p Keyword)
         Keyword s5 = (k, linking r)
    /\ frame r = df /\ prepared r = p
    /\ id_mappings r = by_category g co cu l k
    /\ relationships r = build_relationships (id_mappings r) (fun _ => []) df.
Proof.
  intros r df p. subst r. unfold batch_import_movies. fold df. fold p.
  destruct (batch_insert_movies bs (movies_fault fl) (movies_list p)
              (connect st)) as [valid s1].
  destruct (batch_insert_data bs (data_fault fl Genre) (all_values p Genre)
              Genre s1) as [g s2] eqn:E2.
  destruct (batch_insert_data bs (data_fault fl Company)
              (all_values p Company) Company s2) as [co s3] eqn:E3.
  destruct (batch_insert_data bs (data_fault fl Country)
              (all_values p Country) Country s3) as [cu s4] eqn:E4.
  destruct (batch_insert_data bs (data_fault fl Language)
              (all_values p Language) Language s4) as [l s5] eqn:E5.
  destruct (batch_insert_data bs (data_fault fl Keyword)
              (all_values p Keyword) Keyword s5) as [k s6] eqn:E6.
  cbn. exists s1, g, s2, co, s3, cu, s4, l, s5, k. repeat split; auto.
Qed.

Lemma run_outcome cy bs fl raw st :
  let r := batch_import_movies cy bs fl raw st in
  outcome r =
  close match relationships r with
        | Ok rels => link_all bs fl (valid_movie_ids r) rels (linking r)
        | Raise => rollback (linking r)
        end.
Proof.
  intros r. subst r. unfold batch_import_movies.
  destruct (batch_insert_movies _ _ _ _) as [valid s1].
  repeat match goal with
         | |- context [batch_insert_data ?a ?b ?c ?d ?e] =>
             destruct (batch_insert_data a b c d e)
         end.
  cbn [outcome relationships valid_movie_ids linking].
  destruct (build_relationships _ _ _); reflexivity.
Qed.

(** ** The identifier mapping holds rows of the table *)

Lemma merge_rows_lookup (rows : list (Z * string)) :
  forall (m : gmap string Z) (k : string) (v : Z),
    merge_rows m rows !! k = Some v -> m !! k = Some v \/ (v, k) ∈ rows.
Proof.
  unfold merge_rows. induction rows as [|[i n] rows IH]; intros m k v H.
  - left. exact H.
  - cbn [foldl] in H. apply IH in H as [H | H].
    + cbn in H. destruct (decide (n = k)) as [-> | Hne].
      * rewrite lookup_insert_eq in H. injection H as ->.
        right. apply elem_of_cons. left. reflexivity.
      * rewrite lookup_insert_ne in H by exact Hne. left. exact H.
    + right. apply elem_of_cons. right. exact H.
Qed.

Lemma seeded_lookup c s k v :
  seeded c s !! k = Some v -> (v, k) ∈ reference (working s) c.
Proof.
  unfold seeded. intros H. apply merge_rows_lookup in H as [H | H].
  - rewrite lookup_empty in H. discriminate.
  - exact H.
Qed.

Lemma insert_value_rows_spec (values : list string) :
  forall tbl next returned tbl' next',
    insert_value_rows values tbl next = (returned, tbl', next') ->
    (forall row, row ∈ tbl -> row ∈ tbl')
    /\ (forall row, row ∈ returned -> row ∈ tbl').
Proof.
  induction values as [|v values IH]; intros tbl next returned tbl' next' H.
  - cbn in H. injection H as <- <- <-. split; [auto | intros row Hr; inversion Hr].
  - cbn [insert_value_rows] in H.
    destruct (existsb (fun row => String.eqb row.2 v) tbl).
    + eapply IH, H.
    + destruct (insert_value_rows values (tbl ++ [(next, v)]) (next + 1))
        as [[ret t] n] eqn:E.
      injection H as <- <- <-. apply IH in E as [E1 E2]. split.
      * intros row Hr. apply E1, elem_of_app. left. exact Hr.
      * intros row Hr. apply elem_of_cons in Hr as [-> | Hr].
        -- apply E1, elem_of_app. right. apply elem_of_cons. left. reflexivity.
        -- apply E2, Hr.
Qed.

(** Paged execution with a property of the cursor: what every statement
    establishes for its own result holds for the result left at the end. *)
Lemma run_pages_result {A R : Type} (statement : list A -> M R)
  (I : session -> Prop) (J : R -> session -> Prop) :
  forall f pages,
    (forall page s r s',
        page ∈ pages -> I s -> statement page s = (Ok r, s') ->
        I s' /\ J r s') ->
    forall i cursor s r s',
      I s -> J cursor s ->
      run_pages statement f i pages cursor s = (Ok r, s') -> I s' /\ J r s'.
Proof.
  intros f pages. induction pages as [|page rest IH];
    intros Hst i cursor s r s' HI HJ Hrun.
  - cbn in Hrun. injection Hrun as <- <-. auto.
  - cbn [run_pages] in Hrun. destruct page as [|a page]; [discriminate|].
    destruct (fails_at f i); [discriminate|].
    unfold bind in Hrun.
    destruct (statement (a :: page) s) as [[r1|] s1] eqn:E; [|discriminate].
    apply Hst in E as [E1 E2];
      [| apply elem_of_cons; left; reflexivity | exact HI].
    eapply IH; [| exact E1 | exact E2 | exact Hrun].
    intros page' x r0 x' Hp. apply Hst, elem_of_cons. right. exact Hp.
Qed.

Lemma value_pages_rows c bs f values s returned s1 :
  execute_values (insert_values_statement c) f values bs [] s
  = (Ok returned, s1) ->
  (forall row, row ∈ reference (working s) c ->
               row ∈ reference (working s1) c)
  /\ (forall row, row ∈ returned -> row ∈ reference (working s1) c).
Proof.
  intros H.
  apply (run_pages_result (insert_values_statement c)
           (fun x => forall row, row ∈ reference (working s) c ->
                                 row ∈ reference (working x) c)
           (fun r x => forall row, row ∈ r -> row ∈ reference (working x) c))
    in H; auto.
  - intros page x r x' _ HI Hst. unfold insert_values_statement in Hst.
    destruct (insert_value_rows page (reference (working x) c) (sequence x c))
      as [[ret tbl] next] eqn:E.
    injection Hst as <- <-. cbn. unfold update.
    destruct (decide (c = c)) as [_|]; [|congruence].
    apply insert_value_rows_spec in E as [E1 E2]. split; auto.
  - intros row Hr. inversion Hr.
Qed.

(** Every entry of the mapping a resolution returns is a row of the
    category's table as committed when the resolution ends. *)
Lemma batch_insert_data_sound bs f data c s m s' :
  batch_insert_data bs f data c s = (m, s') ->
  clean s ->
  forall k v, m !! k = Some v -> (v, k) ∈ reference (committed s') c.
Proof.
  intros H Hc k v Hm. unfold clean in Hc.
  apply batch_insert_data_cases in H
    as [(_ & -> & _) | [(_ & _ & -> & ->) | (_ & _ & r & s1 & E & H)]].
  - rewrite lookup_empty in Hm. discriminate.
  - rewrite <- Hc. apply seeded_lookup, Hm.
  - destruct H as [(-> & -> & _) | (returned & -> & _ & -> & ->)]; cbn.
    + apply value_pages_frame in E as (-> & _).
      rewrite <- Hc. apply seeded_lookup, Hm.
    + apply value_pages_rows in E as [E1 E2].
      apply merge_rows_lookup in Hm as [Hm | Hm].
      * apply E1, seeded_lookup, Hm.
      * apply E2, Hm.
Qed.

(** Rows of a reference table are never removed by a resolution. *)
Lemma batch_insert_data_grows bs f data c s m s' :
  batch_insert_data bs f data c s = (m, s') ->
  clean s ->
  forall row, row ∈ reference (committed s) c ->
              row ∈ reference (committed s') c.
Proof.
  intros H Hc row Hr. unfold clean in Hc.
  apply batch_insert_data_cases in H
    as [(_ & _ & ->) | [(_ & _ & _ & ->) | (_ & _ & r & s1 & E & H)]];
    [exact Hr | exact Hr |].
  destruct H as [(_ & -> & _) | (returned & -> & _ & _ & ->)]; cbn.
  - apply value_pages_frame in E as (-> & _). exact Hr.
  - apply value_pages_rows in E as [E1 _]. apply E1. rewrite Hc. exact Hr.
Qed.

(** ** The movie table under the bulk insert *)

Lemma appended_refl ms tbl : appended ms tbl tbl.
Proof.
  exists []. split; [symmetry; apply app_nil_r | intros r Hr; inversion Hr].
Qed.

Lemma appended_trans ms tbl1 tbl2 tbl3 :
  appended ms tbl1 tbl2 -> appended ms tbl2 tbl3 -> appended ms tbl1 tbl3.
Proof.
  intros (e1 & -> & H1) (e2 & -> & H2). exists (e1 ++ e2). split.
  - symmetry. apply app_assoc.
  - intros r Hr. apply elem_of_app in Hr as [Hr | Hr].
    + apply H1, Hr.
    + destruct (H2 r Hr) as [Hin Hno]. split; [exact Hin|].
      intros x Hx. apply Hno, elem_of_app. left. exact Hx.
Qed.

Lemma existsb_false_elem {A : Type} (p : A -> bool) (l : list A) :
  existsb p l = false -> forall x, x ∈ l -> p x = false.
Proof.
  intros H x Hx. destruct (p x) eqn:E; [|reflexivity].
  assert (existsb p l = true); [|congruence].
  apply existsb_exists. exists x. split; [apply list_elem_of_In, Hx | exact E].
Qed.

Lemma insert_movie_rows_appended (rows : list MovieTuple) :
  forall ms tbl tbl',
    (forall r, r ∈ rows -> r ∈ ms) ->
    insert_movie_rows rows tbl = Ok tbl' -> appended ms tbl tbl'.
Proof.
  induction rows as [|r rows IH]; intros ms tbl tbl' Hsub H.
  - cbn in H. injection H as <-. apply appended_refl.
  - cbn [insert_movie_rows] in H.
    assert (Hrest : forall x, x ∈ rows -> x ∈ ms)
      by (intros x Hx; apply Hsub, elem_of_cons; right; exact Hx).
    destruct (existsb (fun x => same_code (t_imdb_id x) (t_imdb_id r)) tbl)
      eqn:Ecode.
    + eapply IH; eauto.
    + destruct (existsb (fun x => t_id x =? t_id r) tbl); [discriminate|].
      eapply appended_trans; [| eapply IH; eauto].
      exists [r]. split; [reflexivity|].
      intros x Hx. apply list_elem_of_singleton in Hx. subst x. split.
      * apply Hsub, elem_of_cons. left. reflexivity.
      * intros x Hx.
        apply (existsb_false_elem _ _ Ecode x Hx).
Qed.

Lemma movie_pages_appended bs f ms s r s1 :
  execute_values insert_movies_statement f ms bs tt s = (r, s1) ->
  appended ms (movies (working s)) (movies (working s1)).
Proof.
  intros H.
  apply (run_pages_invariant insert_movies_statement
           (fun x => appended ms (movies (working s)) (movies (working x))))
    in H; auto using appended_refl.
  intros page x r0 x' Hp HI Hst. unfold insert_movies_statement in Hst.
  destruct (insert_movie_rows page (movies (working x))) as [tbl|] eqn:E.
  - injection Hst as <- <-. cbn. eapply appended_trans; [exact HI|].
    eapply insert_movie_rows_appended; [| exact E].
    intros row Hrow. eapply paginate_elem; eauto.
  - injection Hst as <- <-. exact HI.
Qed.

(** The movie table after [batch_insert_movies], in all cases. *)
Lemma batch_insert_movies_table bs f ms s valid s' :
  batch_insert_movies bs f ms s = (valid, s') ->
  clean s ->
  appended ms (movies (committed s)) (movies (committed s'))
  /\ (valid = ∅ \/ valid = list_to_set (map t_id (movies (committed s')))).
Proof.
  intros H Hc. unfold clean in Hc.
  apply batch_insert_movies_cases in H as (r & s1 & E & H).
  pose proof (movie_pages_appended _ _ _ _ _ _ E) as Happ.
  apply movie_pages_frame in E as (E1 & _).
  rewrite Hc in Happ.
  destruct H as [(_ & -> & ->) | [(_ & _ & -> & ->) |
                [(_ & _ & -> & ->) | (_ & _ & _ & -> & ->)]]]; cbn.
  - rewrite E1. split; [apply appended_refl | auto].
  - rewrite E1. split; [apply appended_refl | auto].
  - split; [exact Happ | auto].
  - split; [exact Happ | auto].
Qed.

(** ** The first loop *)

Lemma collect_movies_from (df : list MovieRecord) :
  forall st,
    movies_list (foldl collect_step st df)
    = movies_list st ++ map movie_tuple (List.filter admissible df).
Proof.
  induction df as [|movie df IH]; intros st.
  - cbn. symmetry. apply app_nil_r.
  - cbn [foldl List.filter]. rewrite IH. unfold collect_step.
    destruct (admissible movie); cbn; [|reflexivity].
    rewrite <- app_assoc. reflexivity.
Qed.

Lemma collect_movies (df : list MovieRecord) :
  movies_list (collect df) = map movie_tuple (List.filter admissible df).
Proof. unfold collect. rewrite collect_movies_from. reflexivity. Qed.

Lemma collect_values_from (c : category) (df : list MovieRecord) :
  forall st x,
    x ∈ all_values (foldl collect_step st df) c <->
    x ∈ all_values st c
    \/ exists movie v p,
         movie ∈ df /\ admissible movie = true /\ field c movie = Some v
         /\ p ∈ Py.split comma v /\ x = Py.strip p.
Proof.
  induction df as [|movie df IH]; intros st x.
  - cbn. split; [auto|]. intros [H | (m & v & p & Hm & _)]; [exact H|].
    inversion Hm.
  - cbn [foldl]. rewrite IH. unfold collect_step at 1.
    destruct (admissible movie) eqn:Ea; cbn.
    + unfold collect_field. split.
      * intros [H | (m & v & p & Hm & H)].
        -- destruct (field c movie) as [v|] eqn:Ef; [|left; exact H].
           apply elem_of_union in H as [H | H]; [left; exact H|].
           apply elem_of_list_to_set, elem_of_map in H as (p & -> & Hp).
           right. exists movie, v, p. repeat split; auto.
           apply elem_of_cons. left. reflexivity.
        -- right. exists m, v, p. split; [|exact H].
           apply elem_of_cons. right. exact Hm.
      * intros [H | (m & v & p & Hm & Ha & Hf & Hp & ->)].
        -- left. destruct (field c movie); [|exact H].
           apply elem_of_union. left. exact H.
        -- apply elem_of_cons in Hm as [-> | Hm].
           ++ left. rewrite Hf. apply elem_of_union. right.
              apply elem_of_list_to_set, elem_of_map. exists p. auto.
           ++ right. exists m, v, p. auto.
    + split.
      * intros [H | (m & v & p & Hm & H)]; [left; exact H|].
        right. exists m, v, p. split; [|exact H].
        apply elem_of_cons. right. exact Hm.
      * intros [H | (m & v & p & Hm & Ha & H)]; [left; exact H|].
        apply elem_of_cons in Hm as [-> | Hm]; [congruence|].
        right. exists m, v, p. auto.
Qed.

(** ** The session when linking starts *)

Lemma connect_clean st : clean (connect st).
Proof. reflexivity. Qed.

Lemma run_linking cy bs fl raw st :
  let r := batch_import_movies cy bs fl raw st in
  clean (linking r)
  /\ joins (committed (linking r)) = joins (tables st)
  /\ appended (movies_list (prepared r)) (movies (tables st))
       (movies (committed (linking r)))
  /\ (valid_movie_ids r = ∅
      \/ valid_movie_ids r
         = list_to_set (map t_id (movies (committed (linking r)))))
  /\ forall c k v,
       id_mappings r c !! k = Some v ->
       (v, k) ∈ reference (committed (linking r)) c.
Proof.
  intros r.
  destruct (run_steps cy bs fl raw st)
    as (s1 & g & s2 & co & s3 & cu & s4 & l & s5 & k & E1 & E2 & E3 & E4
        & E5 & E6 & Hf & Hp & Hids & _).
  fold r in E1, E6, Hf, Hp, Hids. rewrite <- Hp in E1.
  pose proof (connect_clean st) as C0.
  pose proof (batch_insert_movies_frame _ _ _ _ _ _ E1 C0) as (C1 & _ & _ & J1).
  pose proof (batch_insert_movies_table _ _ _ _ _ _ E1 C0) as (A1 & V1).
  pose proof (batch_insert_data_frame _ _ _ _ _ _ _ E2 C1) as (C2 & M2 & J2 & F2).
  pose proof (batch_insert_data_frame _ _ _ _ _ _ _ E3 C2) as (C3 & M3 & J3 & F3).
  pose proof (batch_insert_data_frame _ _ _ _ _ _ _ E4 C3) as (C4 & M4 & J4 & F4).
  pose proof (batch_insert_data_frame _ _ _ _ _ _ _ E5 C4) as (C5 & M5 & J5 & F5).
  pose proof (batch_insert_data_frame _ _ _ _ _ _ _ E6 C5) as (C6 & M6 & J6 & F6).
  assert (HM : movies (committed (linking r)) = movies (committed s1))
    by congruence.
  split; [exact C6|]. split; [cbn in J1; congruence|].
  split; [rewrite HM; exact A1|].
  split; [rewrite HM; exact V1|].
  intros c key v Hm. rewrite Hids in Hm.
  assert (Hup : forall c' c0 sa sb,
             (forall c', c' <> c0 ->
                reference (committed sb) c' = reference (committed sa) c'
                /\ sequence sb c' = sequence sa c') ->
             c' <> c0 ->
             (v, key) ∈ reference (committed sa) c' ->
             (v, key) ∈ reference (committed sb) c').
  { intros c' c0 sa sb F Hne H. destruct (F c' Hne) as [-> _]. exact H. }
  destruct c; cbn in Hm.
  - pose proof (batch_insert_data_sound _ _ _ _ _ _ _ E2 C1 _ _ Hm) as H.
    apply (Hup _ _ _ _ F6); [discriminate|].
    apply (Hup _ _ _ _ F5); [discriminate|].
    apply (Hup _ _ _ _ F4); [discriminate|].
    apply (Hup _ _ _ _ F3); [discriminate|]. exact H.
  - pose proof (batch_insert_data_sound _ _ _ _ _ _ _ E3 C2 _ _ Hm) as H.
    apply (Hup _ _ _ _ F6); [discriminate|].
    apply (Hup _ _ _ _ F5); [discriminate|].
    apply (Hup _ _ _ _ F4); [discriminate|]. exact H.
  - pose proof (batch_insert_data_sound _ _ _ _ _ _ _ E4 C3 _ _ Hm) as H.
    apply (Hup _ _ _ _ F6); [discriminate|].
    apply (Hup _ _ _ _ F5); [discriminate|]. exact H.
  - pose proof (batch_insert_data_sound _ _ _ _ _ _ _ E5 C4 _ _ Hm) as H.
    apply (Hup _ _ _ _ F6); [discriminate|]. exact H.
  - exact (batch_insert_data_sound _ _ _ _ _ _ _ E6 C5 _ _ Hm).
Qed.

(** The relationship inserts leave the movie and reference tables alone. *)
Lemma link_all_frame bs fl valid rels (cs : list category) :
  forall s,
    clean s ->
    let s' := foldl (fun s c =>
                       batch_insert_relationships bs
                         (relationships_fault fl c) (rels c) c valid s)
                    s cs in
    clean s' /\ sequence s' = sequence s
    /\ movies (committed s') = movies (committed s)
    /\ reference (committed s') = reference (committed s)
    /\ forall c, c ∉ cs -> joins (committed s') c = joins (committed s) c.
Proof.
  induction cs as [|c0 cs IH]; intros s Hc.
  - cbn. auto.
  - cbn [foldl].
    pose proof (batch_insert_relationships_frame bs
                  (relationships_fault fl c0) (rels c0) c0 valid s Hc)
      as (C1 & Q1 & M1 & R1 & J1).
    specialize (IH _ C1). cbn zeta in IH.
    destruct IH as (C2 & Q2 & M2 & R2 & J2).
    cbn zeta. repeat split; try congruence.
    intros c Hnin. rewrite J2, J1; auto.
    + intros ->. apply Hnin, elem_of_cons. left. reflexivity.
    + intros Hin. apply Hnin, elem_of_cons. right. exact Hin.
Qed.

(** With no valid movie identifier the whole linking step changes nothing. *)
Lemma link_all_gated bs fl (valid : gset Z) rels (cs : list category) :
  valid = ∅ ->
  forall s,
    clean s ->
    committed (foldl (fun s c =>
                        batch_insert_relationships bs
                          (relationships_fault fl c) (rels c) c valid s)
                     s cs)
    = committed s.
Proof.
  intros Hv. induction cs as [|c0 cs IH]; intros s Hc; [reflexivity|].
  cbn [foldl]. rewrite IH.
  - apply batch_insert_relationships_gated; assumption.
  - apply batch_insert_relationships_frame, Hc.
Qed.

Lemma run_outcome_frame cy bs fl raw st :
  movies (tables (outcome (batch_import_movies cy bs fl raw st)))
  = movies (committed (linking (batch_import_movies cy bs fl raw st)))
  /\ reference (tables (outcome (batch_import_movies cy bs fl raw st)))
     = reference (committed (linking (batch_import_movies cy bs fl raw st))).
Proof.
  pose proof (run_outcome cy bs fl raw st) as Ho. cbn zeta in Ho. rewrite Ho.
  destruct (run_linking cy bs fl raw st) as (Hc & _).
  destruct (relationships (batch_import_movies cy bs fl raw st)) as [rels|].
  - destruct (link_all_frame bs fl
                (valid_movie_ids (batch_import_movies cy bs fl raw st))
                rels categories _ Hc) as (_ & _ & Hm & Hr & _).
    unfold link_all. cbn [close tables]. auto.
  - cbn. auto.
Qed.

Lemma movie_gated_linking_core cy bs fl raw st :
  valid_movie_ids (batch_import_movies cy bs fl raw st) = ∅ ->
  forall c,
    joins (tables (outcome (batch_import_movies cy bs fl raw st))) c
    = joins (tables st) c.
Proof.
  intros Hv c.
  pose proof (run_outcome cy bs fl raw st) as Ho. cbn zeta in Ho. rewrite Ho.
  destruct (run_linking cy bs fl raw st) as (Hc & Hj & _).
  destruct (relationships (batch_import_movies cy bs fl raw st)) as [rels|].
  - unfold link_all. cbn [close tables].
    rewrite (link_all_gated bs fl _ rels categories Hv _ Hc), Hj.
    reflexivity.
  - cbn. rewrite Hj. reflexivity.
Qed.

(** C3. When the movie upsert returns the empty set, the run leaves each of
    the five join tables exactly as it found it, whatever the resolutions of
    the entity categories returned. *)
Theorem movie_gated_linking cy bs fl raw st :
  valid_movie_ids (batch_import_movies cy bs fl raw st) = ∅ ->
  forall c,
    joins (tables (outcome (batch_import_movies cy bs fl raw st))) c
    = joins (tables st) c.
Proof. apply movie_gated_linking_core. Qed.

Lemma movie_gated_linking_witness :
  id_mappings (batch_import_movies 2025 1000 movies_down [heat] empty_store)
    Genre !! "Drama" = Some 2
  /\ forall c,
       joins (tables (outcome
                (batch_import_movies 2025 1000 movies_down [heat]
                   empty_store))) c
       = [].
Proof.
  split; [vm_compute; reflexivity|].
  apply (movie_gated_linking 2025 1000 movies_down [heat] empty_store).
  vm_compute. reflexivity.
Defined.

Lemma truthy_present v : Py.truthy v = true -> v <> None.
Proof. destruct v; [discriminate | intros H; discriminate H]. Qed.

(** The tuples handed to the movie upsert come from records that passed the
    recency filter and the test of line 158. *)
Lemma prepared_movies cy bs fl raw st row :
  row ∈ movies_list (prepared (batch_import_movies cy bs fl raw st)) ->
  exists movie,
    movie ∈ raw /\ recent cy movie = true /\ admissible movie = true
    /\ row = movie_tuple movie.
Proof.
  destruct (run_steps cy bs fl raw st)
    as (s1 & g & s2 & co & s3 & cu & s4 & l & s5 & k & _ & _ & _ & _ & _
        & _ & _ & -> & _).
  rewrite collect_movies. intros H.
  apply elem_of_map in H as (movie & -> & H).
  apply elem_of_List_filter in H as [H Ha].
  apply elem_of_List_filter in H as [H Hr].
  exists movie. auto.
Qed.

(** C4. A record whose title, external reference code or release date is
    missing is not among the tuples handed to the movie upsert, and after the
    run it is in the movie table only if it was there before the run. *)
Theorem inadmissible_never_persisted cy bs fl raw st movie :
  title movie = None \/ imdb_id movie = None \/ release_date movie = None ->
  (movie_tuple movie
     ∉ movies_list (prepared (batch_import_movies cy bs fl raw st)))
  /\ (movie_tuple movie
        ∈ movies (tables (outcome (batch_import_movies cy bs fl raw st))) ->
      movie_tuple movie ∈ movies (tables st)).
Proof.
  intros Hmiss.
  assert (Hnot : movie_tuple movie
                   ∉ movies_list
                       (prepared (batch_import_movies cy bs fl raw st))).
  { intros Hin. apply prepared_movies in Hin as (m & _ & Hr & Ha & Heq).
    unfold admissible in Ha. apply andb_prop in Ha as [Ha _].
    apply andb_prop in Ha as [Ht Hi].
    apply truthy_present in Ht, Hi.
    unfold recent in Hr.
    assert (Hd : release_date m <> None)
      by (destruct (release_date m); [discriminate | discriminate Hr]).
    apply (f_equal t_title) in Heq as Et.
    apply (f_equal t_imdb_id) in Heq as Ei.
    apply (f_equal t_release_date) in Heq as Ed.
    cbn in Et, Ei, Ed. destruct Hmiss as [H | [H | H]]; congruence. }
  split; [exact Hnot|].
  intros Hin. destruct (run_outcome_frame cy bs fl raw st) as [Hm _].
  rewrite Hm in Hin.
  destruct (run_linking cy bs fl raw st) as (_ & _ & (extra & He & Hex) & _).
  rewrite He in Hin. apply elem_of_app in Hin as [Hin | Hin]; [exact Hin|].
  destruct (Hex _ Hin) as [Hp _]. contradiction.
Qed.

Lemma inadmissible_never_persisted_witness :
  (movie_tuple untitled
     ∉ movies_list
         (prepared (batch_import_movies 2025 1000 no_faults [heat; untitled]
                      empty_store)))
  /\ (movie_tuple untitled
        ∈ movies (tables (outcome
                    (batch_import_movies 2025 1000 no_faults [heat; untitled]
                       empty_store))) ->
      movie_tuple untitled ∈ movies (tables empty_store)).
Proof.
  apply (inadmissible_never_persisted 2025 1000 no_faults [heat; untitled]
           empty_store untitled).
  left. reflexivity.
Defined.

Lemma same_code_sym a b : same_code a b = same_code b a.
Proof.
  destruct a as [x|], b as [y|]; cbn; auto. apply String.eqb_sym.
Qed.

Lemma filter_none {A : Type} (p : A -> bool) (l : list A) :
  (forall x, x ∈ l -> p x = false) -> List.filter p l = [].
Proof.
  induction l as [|a l IH]; intros H; [reflexivity|].
  cbn. rewrite (H a) by (apply elem_of_cons; left; reflexivity).
  apply IH. intros x Hx. apply H, elem_of_cons. right. exact Hx.
Qed.

(** C5. When the bulk insert, the commit and the read all return, the movie
    upsert returns exactly the identifiers of the rows of the movie table as
    it then stands: the rows that were there before are still there and
    their identifiers are returned, and for a reference code that was
    already in the table no row is added. *)
Theorem movie_upsert_returns_all_ids bs f ms s s1 :
  execute_values insert_movies_statement f ms bs tt s = (Ok tt, s1) ->
  f <> FailCommit ->
  f <> FailRead ->
  batch_insert_movies bs f ms s
  = (list_to_set (map t_id (movies (working s1))), persisted s1)
  /\ forall x,
       x ∈ movies (working s) ->
       x ∈ movies (committed (persisted s1))
       /\ t_id x ∈ (batch_insert_movies bs f ms s).1
       /\ forall code,
            t_imdb_id x = Some code ->
            List.filter (fun y => same_code (t_imdb_id y) (Some code))
              (movies (committed (persisted s1)))
            = List.filter (fun y => same_code (t_imdb_id y) (Some code))
                (movies (working s)).
Proof.
  intros E Hcm Hrd.
  assert (Hres : batch_insert_movies bs f ms s
                 = (list_to_set (map t_id (movies (working s1))),
                    persisted s1)).
  { unfold batch_insert_movies, bind. rewrite E.
    unfold commit, select_movie_ids.
    destruct f; first [reflexivity | congruence]. }
  split; [exact Hres|].
  apply movie_pages_appended in E as (extra & He & Hex).
  intros x Hx. rewrite Hres. cbn [committed persisted fst].
  assert (Hx1 : x ∈ movies (working s1))
    by (rewrite He; apply elem_of_app; left; exact Hx).
  split; [exact Hx1|]. split.
  - apply elem_of_list_to_set, elem_of_map. exists x. auto.
  - intros code Hcode. rewrite He, List.filter_app.
    rewrite (filter_none _ extra); [apply app_nil_r|].
    intros r Hr. destruct (Hex r Hr) as [_ Hno].
    specialize (Hno x Hx). rewrite Hcode in Hno.
    rewrite same_code_sym. exact Hno.
Qed.

Lemma movie_upsert_returns_all_ids_witness :
  (batch_insert_movies 1000 NoFault [movie_tuple heat] (connect loaded)).1
  = {[ 1 ]}
  /\ movies (committed
       (batch_insert_movies 1000 NoFault [movie_tuple heat]
          (connect loaded)).2)
     = [movie_tuple heat].
Proof.
  destruct (movie_upsert_returns_all_ids 1000 NoFault [movie_tuple heat]
              (connect loaded) (connect loaded)) as [Hres _].
  - vm_compute. reflexivity.
  - discriminate.
  - discriminate.
  - rewrite Hres. split; vm_compute; reflexivity.
Defined.

(** C6. When the bulk insert of the movies raises, at whichever page, or
    its commit does, the movie upsert rolls the session back to the tables
    as they were committed before the call and returns the empty set; the
    run then leaves the movie table and each join table as it found them. *)
Theorem movie_insert_failure_is_total cy bs fl raw st r s1 :
  execute_values insert_movies_statement (movies_fault fl)
    (movies_list (collect (recency_filter cy raw))) bs tt (connect st)
  = (r, s1) ->
  r = Raise \/ movies_fault fl = FailCommit ->
  batch_insert_movies bs (movies_fault fl)
    (movies_list (collect (recency_filter cy raw))) (connect st)
  = (∅, rollback s1)
  /\ committed (rollback s1) = tables st
  /\ working (rollback s1) = tables st
  /\ valid_movie_ids (batch_import_movies cy bs fl raw st) = ∅
  /\ movies (tables (outcome (batch_import_movies cy bs fl raw st)))
     = movies (tables st)
  /\ forall c,
       joins (tables (outcome (batch_import_movies cy bs fl raw st))) c
       = joins (tables st) c.
Proof.
  intros E Hfail.
  assert (Hres : batch_insert_movies bs (movies_fault fl)
                   (movies_list (collect (recency_filter cy raw)))
                   (connect st) = (∅, rollback s1)).
  { unfold batch_insert_movies, bind. rewrite E.
    destruct r as [[]|]; [|reflexivity].
    destruct Hfail as [Hr | Hf]; [discriminate|]. rewrite Hf. reflexivity. }
  pose proof (movie_pages_frame _ _ _ _ _ _ _ E) as (Hcom & _).
  destruct (run_steps cy bs fl raw st)
    as (x1 & g & x2 & co & x3 & cu & x4 & l & x5 & k & E1 & E2 & E3 & E4
        & E5 & E6 & _).
  rewrite Hres in E1. injection E1 as Hv Hx. symmetry in Hv.
  split; [exact Hres|]. split; [exact Hcom|]. split; [exact Hcom|].
  split; [exact Hv|]. split.
  - destruct (run_outcome_frame cy bs fl raw st) as [-> _].
    subst x1.
    pose proof (batch_insert_data_frame _ _ _ _ _ _ _ E2 eq_refl)
      as (C2 & M2 & _).
    pose proof (batch_insert_data_frame _ _ _ _ _ _ _ E3 C2) as (C3 & M3 & _).
    pose proof (batch_insert_data_frame _ _ _ _ _ _ _ E4 C3) as (C4 & M4 & _).
    pose proof (batch_insert_data_frame _ _ _ _ _ _ _ E5 C4) as (C5 & M5 & _).
    pose proof (batch_insert_data_frame _ _ _ _ _ _ _ E6 C5) as (C6 & M6 & _).
    cbn in M2. rewrite Hcom in M2. cbn in M2. congruence.
  - apply movie_gated_linking_core, Hv.
Qed.

Lemma movie_insert_failure_is_total_witness :
  valid_movie_ids (batch_import_movies 2025 1000 movies_down [heat] loaded)
  = ∅
  /\ movies (tables (outcome
               (batch_import_movies 2025 1000 movies_down [heat] loaded)))
     = movies (tables loaded)
  /\ forall c,
       joins (tables (outcome
                (batch_import_movies 2025 1000 movies_down [heat] loaded))) c
       = joins (tables loaded) c.
Proof.
  destruct (movie_insert_failure_is_total 2025 1000 movies_down [heat] loaded
              Raise (connect loaded)) as (_ & _ & _ & H).
  - vm_compute. reflexivity.
  - left. reflexivity.
  - exact H.
Defined.

(** ** The second loop *)

Lemma generate_edges_ok id ids pieces :
  generate_edges id ids pieces = Ok (mention_edges id ids pieces).
Proof.
  induction pieces as [|p pieces IH]; [reflexivity|].
  cbn [generate_edges mention_edges omap list_omap].
  fold (mention_edges id ids pieces).
  destruct (ids !! Py.strip p) as [e|] eqn:E.
  - rewrite bool_decide_eq_true_2
      by (apply elem_of_dom; rewrite E; eexists; reflexivity).
    unfold subscript. rewrite E, IH. reflexivity.
  - rewrite bool_decide_eq_false_2
      by (rewrite elem_of_dom, E; intros [? ?]; discriminate).
    exact IH.
Qed.

Lemma extend_relationships_ok c ids movie rels :
  extend_relationships c ids movie rels
  = Ok (rels ++ record_edges c ids movie).
Proof.
  unfold extend_relationships, record_edges.
  destruct (field c movie) as [v|].
  - rewrite generate_edges_ok. reflexivity.
  - rewrite app_nil_r. reflexivity.
Qed.

Lemma build_relationships_ok ids (df : list MovieRecord) :
  forall rels,
  exists r,
    build_relationships ids rels df = Ok r
    /\ forall c, r c = rels c ++ category_edges c (ids c) df.
Proof.
  induction df as [|movie df IH]; intros rels.
  - exists rels. split; [reflexivity|]. intros c. cbn.
    rewrite app_nil_r. reflexivity.
  - cbn [build_relationships]. unfold relationship_step.
    rewrite !extend_relationships_ok. cbn [mbind result_bind].
    match goal with
    | |- context [build_relationships ids ?r' df] =>
        destruct (IH r') as (r & Hr & Hc)
    end.
    exists r. split; [exact Hr|].
    intros c. rewrite Hc. unfold category_edges. cbn [flat_map].
    rewrite app_assoc. destruct c; reflexivity.
Qed.

Lemma mention_edges_app id ids l1 l2 :
  mention_edges id ids (l1 ++ l2)
  = mention_edges id ids l1 ++ mention_edges id ids l2.
Proof. unfold mention_edges. apply omap_app. Qed.

(** C9. A mention whose trimmed value is not a key of the category's
    mapping adds no edge: the generator returns, without raising, the edges
    it returns for the field without that mention; and the second loop as a
    whole returns its five edge lists without raising. *)
Theorem dangling_mention_dropped cy bs fl raw st c id pre p post :
  id_mappings (batch_import_movies cy bs fl raw st) c !! Py.strip p = None ->
  (exists es,
      generate_edges id (id_mappings (batch_import_movies cy bs fl raw st) c)
        (pre ++ p :: post) = Ok es
      /\ generate_edges id
           (id_mappings (batch_import_movies cy bs fl raw st) c)
           (pre ++ post) = Ok es)
  /\ exists rels,
       relationships (batch_import_movies cy bs fl raw st) = Ok rels.
Proof.
  intros Hnone. split.
  - exists (mention_edges id
              (id_mappings (batch_import_movies cy bs fl raw st) c)
              (pre ++ post)).
    rewrite !generate_edges_ok. split; [|reflexivity].
    rewrite !mention_edges_app. cbn [mention_edges omap list_omap].
    rewrite Hnone. reflexivity.
  - destruct (run_steps cy bs fl raw st)
      as (s1 & g & s2 & co & s3 & cu & s4 & l & s5 & k & _ & _ & _ & _ & _
          & _ & _ & _ & _ & ->).
    destruct (build_relationships_ok
                (id_mappings (batch_import_movies cy bs fl raw st))
                (recency_filter cy raw) (fun _ => [])) as (r & Hr & _).
    exists r. exact Hr.
Qed.

Lemma dangling_mention_dropped_witness :
  exists es,
    generate_edges 1
      (id_mappings (batch_import_movies 2025 1000 no_faults [heat] empty_store)
         Genre)
      ["Action"; " Drama"; "Noir"] = Ok es
    /\ generate_edges 1
         (id_mappings
            (batch_import_movies 2025 1000 no_faults [heat] empty_store)
            Genre)
         ["Action"; " Drama"] = Ok es.
Proof.
  apply (dangling_mention_dropped 2025 1000 no_faults [heat] empty_store
           Genre 1 ["Action"; " Drama"] "Noir" []).
  vm_compute. reflexivity.
Defined.

(** ** Deduplication *)

(** C8, as stated, fails: the keyword field of [heat] has an empty piece,
    and the empty string is accumulated. *)
Lemma empty_piece_is_accumulated :
  "" ∈ all_values
         (prepared (batch_import_movies 2025 1000 no_faults [heat]
                      empty_store)) Keyword
  /\ all_values
       (prepared (batch_import_movies 2025 1000 no_faults [heat] empty_store))
       Keyword
     <> spec_collect_field Keyword heat ∅.
Proof.
  assert (Hin : "" ∈ all_values
                       (prepared (batch_import_movies 2025 1000 no_faults
                                    [heat] empty_store)) Keyword).
  { apply (bool_decide_unpack _). vm_compute. exact I. }
  split; [exact Hin|].
  assert (Hnot : "" ∉ spec_collect_field Keyword heat ∅).
  { apply (bool_decide_unpack _). vm_compute. exact I. }
  intros Heq. rewrite Heq in Hin. exact (Hnot Hin).
Qed.

(** C8, amended. A value is in a category's accumulator after the first
    loop exactly when it is the trimmed form of a piece, empty or not, of
    the present field of a record that passed the test of line 158. *)
Theorem accumulated_values cy bs fl raw st c x :
  x ∈ all_values (prepared (batch_import_movies cy bs fl raw st)) c <->
  exists movie v p,
    movie ∈ frame (batch_import_movies cy bs fl raw st)
    /\ admissible movie = true
    /\ field c movie = Some v
    /\ p ∈ Py.split comma v
    /\ x = Py.strip p.
Proof.
  destruct (run_steps cy bs fl raw st)
    as (s1 & g & s2 & co & s3 & cu & s4 & l & s5 & k & _ & _ & _ & _ & _
        & _ & -> & -> & _).
  unfold collect. rewrite collect_values_from. cbn. split.
  - intros [H | H]; [|exact H]. apply not_elem_of_empty in H. contradiction.
  - auto.
Qed.

(** ** Isolation of the categories *)

(** Paged execution on two sessions that a relation ties together: when
    every statement gives equal results on related sessions and keeps them
    related, so does the whole execution. *)
Lemma run_pages_related {A R : Type} (statement : list A -> M R)
  (Rel : session -> session -> Prop) :
  (forall page x1 x2,
      Rel x1 x2 ->
      (statement page x1).1 = (statement page x2).1
      /\ Rel (statement page x1).2 (statement page x2).2) ->
  forall f pages i cursor x1 x2,
    Rel x1 x2 ->
    (run_pages statement f i pages cursor x1).1
    = (run_pages statement f i pages cursor x2).1
    /\ Rel (run_pages statement f i pages cursor x1).2
           (run_pages statement f i pages cursor x2).2.
Proof.
  intros Hst f pages. induction pages as [|page rest IH];
    intros i cursor x1 x2 HR.
  - cbn. auto.
  - cbn [run_pages]. destruct page as [|a page]; [cbn; auto|].
    destruct (fails_at f i); [cbn; auto|].
    unfold bind. destruct (Hst (a :: page) x1 x2 HR) as [H1 H2].
    destruct (statement (a :: page) x1) as [[r1|] y1],
             (statement (a :: page) x2) as [[r2|] y2];
      cbn in H1, H2; try discriminate.
    + injection H1 as ->. apply IH, H2.
    + cbn. auto.
Qed.

Lemma agree_refl c s : clean s -> agree c s s.
Proof. intros H. repeat split; auto. Qed.

(** A resolution reads and writes its own reference table and generator
    only. *)
Lemma batch_insert_data_local bs f data c s1 s2 :
  clean s1 -> clean s2 ->
  reference (committed s1) c = reference (committed s2) c ->
  sequence s1 c = sequence s2 c ->
  (batch_insert_data bs f data c s1).1 = (batch_insert_data bs f data c s2).1
  /\ reference (committed (batch_insert_data bs f data c s1).2) c
     = reference (committed (batch_insert_data bs f data c s2).2) c
  /\ sequence (batch_insert_data bs f data c s1).2 c
     = sequence (batch_insert_data bs f data c s2).2 c.
Proof.
  intros C1 C2 Hr Hs. unfold clean in C1, C2.
  unfold batch_insert_data, select_reference.
  destruct (decide (f = FailRead)) as [-> | Hf]; [cbn; auto|].
  assert (Hsel : forall s : session,
             (match f with
              | FailRead => (Raise, s)
              | _ => (Ok (reference (working s) c), s)
              end) = (Ok (reference (working s) c), s))
    by (intros s; destruct f; congruence).
  rewrite !Hsel. rewrite C1, C2, Hr.
  set (m0 := merge_rows ∅ (reference (committed s2) c)).
  destruct (new_values data m0) as [|v vs] eqn:Enew; [cbn; auto|].
  unfold bind, execute_values.
  destruct (run_pages_related (insert_values_statement c)
              (fun x1 x2 => reference (working x1) c = reference (working x2) c
                            /\ sequence x1 c = sequence x2 c
                            /\ reference (committed x1) c
                               = reference (committed x2) c))
    with (f := f) (pages := paginate (v :: vs) bs) (i := 0%nat)
         (cursor := @nil (Z * string)) (x1 := s1) (x2 := s2)
    as [H1 (H2 & H3 & H4)].
  - intros page x1 x2 (Q1 & Q2 & Q3). unfold insert_values_statement.
    rewrite Q1, Q2.
    destruct (insert_value_rows page (reference (working x2) c)
                (sequence x2 c)) as [[ret tbl] next].
    cbn. unfold update. destruct (decide (c = c)); [auto | congruence].
  - rewrite C1, C2. auto.
  - destruct (run_pages (insert_values_statement c) f 0
                (paginate (v :: vs) bs) [] s1) as [[r1|] y1],
             (run_pages (insert_values_statement c) f 0
                (paginate (v :: vs) bs) [] s2) as [[r2|] y2];
      cbn in H1, H2, H3, H4; try discriminate.
    + injection H1 as ->. unfold commit.
      destruct f; cbn; auto.
    + cbn. auto.
Qed.

Lemma batch_insert_data_agree c bs f1 f2 d1 d2 c0 s1 s2 :
  agree c s1 s2 ->
  (c0 <> c -> f1 = f2 /\ d1 = d2) ->
  agree c (batch_insert_data bs f1 d1 c0 s1).2
          (batch_insert_data bs f2 d2 c0 s2).2
  /\ (c0 <> c ->
      (batch_insert_data bs f1 d1 c0 s1).1
      = (batch_insert_data bs f2 d2 c0 s2).1).
Proof.
  intros (C1 & C2 & Hm & Ha) Hsame.
  destruct (batch_insert_data bs f1 d1 c0 s1) as [m1 s1'] eqn:E1.
  destruct (batch_insert_data bs f2 d2 c0 s2) as [m2 s2'] eqn:E2.
  pose proof (batch_insert_data_frame _ _ _ _ _ _ _ E1 C1)
    as (C1' & M1 & J1 & F1).
  pose proof (batch_insert_data_frame _ _ _ _ _ _ _ E2 C2)
    as (C2' & M2 & J2 & F2).
  cbn [fst snd].
  assert (Hloc : c0 <> c ->
                 m1 = m2
                 /\ reference (committed s1') c0 = reference (committed s2') c0
                 /\ sequence s1' c0 = sequence s2' c0).
  { intros Hne. destruct (Hsame Hne) as [-> ->].
    destruct (Ha c0 Hne) as (Hr & _ & Hs).
    pose proof (batch_insert_data_local bs f2 d2 c0 s1 s2 C1 C2 Hr Hs) as H.
    rewrite E1, E2 in H. exact H. }
  split; [| intros Hne; apply Hloc, Hne].
  split; [exact C1'|]. split; [exact C2'|]. split; [congruence|].
  intros c' Hc'. destruct (Ha c' Hc') as (Hr & Hj & Hs).
  rewrite J1, J2. split; [| split; [exact Hj|]].
  - destruct (decide (c' = c0)) as [-> | Hne].
    + apply Hloc, Hc'.
    + destruct (F1 c' Hne) as [-> _], (F2 c' Hne) as [-> _]. exact Hr.
  - destruct (decide (c' = c0)) as [-> | Hne].
    + apply Hloc, Hc'.
    + destruct (F1 c' Hne) as [_ ->], (F2 c' Hne) as [_ ->]. exact Hs.
Qed.

(** A relationship insert reads the movie table and its own reference
    table, and writes its own join table only. *)
Lemma batch_insert_relationships_local bs f rels c valid s1 s2 :
  clean s1 -> clean s2 ->
  movies (committed s1) = movies (committed s2) ->
  reference (committed s1) c = reference (committed s2) c ->
  joins (committed s1) c = joins (committed s2) c ->
  joins (committed (batch_insert_relationships bs f rels c valid s1)) c
  = joins (committed (batch_insert_relationships bs f rels c valid s2)) c.
Proof.
  intros C1 C2 Hm Hr Hj. unfold clean in C1, C2.
  unfold batch_insert_relationships, bind, execute_values.
  set (edges := List.filter (fun rel => bool_decide (rel.1 ∈ valid)) rels).
  destruct (run_pages_related (insert_edges_statement c)
              (fun x1 x2 => movies (working x1) = movies (working x2)
                            /\ reference (working x1) c
                               = reference (working x2) c
                            /\ joins (working x1) c = joins (working x2) c
                            /\ joins (committed x1) c
                               = joins (committed x2) c))
    with (f := f) (pages := paginate edges bs) (i := 0%nat) (cursor := tt)
         (x1 := s1) (x2 := s2)
    as [H1 (H2 & H3 & H4 & H5)].
  - intros page x1 x2 (Q1 & Q2 & Q3 & Q4). unfold insert_edges_statement.
    rewrite Q1, Q2, Q3.
    destruct (insert_edge_rows page (map t_id (movies (working x2)))
                (map fst (reference (working x2) c)) (joins (working x2) c));
      cbn; repeat split; auto.
    unfold update. destruct (decide (c = c)); [auto | congruence].
  - rewrite C1, C2. auto.
  - destruct (run_pages (insert_edges_statement c) f 0 (paginate edges bs)
                tt s1) as [[r1|] y1],
             (run_pages (insert_edges_statement c) f 0 (paginate edges bs)
                tt s2) as [[r2|] y2];
      cbn in H1, H2, H3, H4, H5; try discriminate.
    + unfold commit. destruct f; cbn; auto.
    + cbn. auto.
Qed.

Lemma batch_insert_relationships_agree c bs f1 f2 rels1 rels2 c0 valid s1 s2 :
  agree c s1 s2 ->
  (c0 <> c -> f1 = f2 /\ rels1 = rels2) ->
  agree c (batch_insert_relationships bs f1 rels1 c0 valid s1)
          (batch_insert_relationships bs f2 rels2 c0 valid s2).
Proof.
  intros (C1 & C2 & Hm & Ha) Hsame.
  pose proof (batch_insert_relationships_frame bs f1 rels1 c0 valid s1 C1)
    as (C1' & Q1 & M1 & R1 & J1).
  pose proof (batch_insert_relationships_frame bs f2 rels2 c0 valid s2 C2)
    as (C2' & Q2 & M2 & R2 & J2).
  cbn zeta in *.
  split; [exact C1'|]. split; [exact C2'|]. split; [congruence|].
  intros c' Hc'. destruct (Ha c' Hc') as (Hr & Hj & Hs).
  rewrite R1, R2, Q1, Q2. split; [exact Hr|]. split; [|exact Hs].
  destruct (decide (c' = c0)) as [-> | Hne].
  - destruct (Hsame Hc') as [-> ->].
    apply batch_insert_relationships_local; auto.
  - rewrite (J1 c' Hne), (J2 c' Hne). exact Hj.
Qed.

Lemma link_all_agree c bs fl1 fl2 valid rels1 rels2 (cs : list category) :
  (forall c0, c0 <> c ->
     relationships_fault fl1 c0 = relationships_fault fl2 c0
     /\ rels1 c0 = rels2 c0) ->
  forall s1 s2,
    agree c s1 s2 ->
    agree c
      (foldl (fun s c0 =>
                batch_insert_relationships bs (relationships_fault fl1 c0)
                  (rels1 c0) c0 valid s) s1 cs)
      (foldl (fun s c0 =>
                batch_insert_relationships bs (relationships_fault fl2 c0)
                  (rels2 c0) c0 valid s) s2 cs).
Proof.
  intros Hsame. induction cs as [|c0 cs IH]; intros s1 s2 Ha; [exact Ha|].
  cbn [foldl]. apply IH, batch_insert_relationships_agree; auto.
Qed.

Lemma run_isolated cy bs fl1 fl2 raw st c :
  same_faults_but c fl1 fl2 ->
  forall c', c' <> c ->
    id_mappings (batch_import_movies cy bs fl1 raw st) c'
    = id_mappings (batch_import_movies cy bs fl2 raw st) c'
    /\ reference (tables (outcome (batch_import_movies cy bs fl1 raw st))) c'
       = reference (tables (outcome (batch_import_movies cy bs fl2 raw st))) c'
    /\ joins (tables (outcome (batch_import_movies cy bs fl1 raw st))) c'
       = joins (tables (outcome (batch_import_movies cy bs fl2 raw st))) c'.
Proof.
  intros [Hmf Hsame].
  destruct (run_steps cy bs fl1 raw st)
    as (x1 & g & x2 & co & x3 & cu & x4 & l & x5 & k & E1 & E2 & E3 & E4
        & E5 & E6 & _ & _ & Hids & Hrels).
  destruct (run_steps cy bs fl2 raw st)
    as (y1 & g' & y2 & co' & y3 & cu' & y4 & l' & y5 & k' & E1' & E2' & E3'
        & E4' & E5' & E6' & _ & _ & Hids' & Hrels').
  set (r1 := batch_import_movies cy bs fl1 raw st) in *.
  set (r2 := batch_import_movies cy bs fl2 raw st) in *.
  set (p := collect (recency_filter cy raw)) in *.
  rewrite <- Hmf, E1 in E1'. injection E1' as Hv <-.
  pose proof (batch_insert_movies_frame _ _ _ _ _ _ E1 (connect_clean st))
    as (C1 & _).
  assert (Hstep : forall c0 sa sb,
             agree c sa sb ->
             agree c (batch_insert_data bs (data_fault fl1 c0)
                        (all_values p c0) c0 sa).2
                     (batch_insert_data bs (data_fault fl2 c0)
                        (all_values p c0) c0 sb).2
             /\ (c0 <> c ->
                 (batch_insert_data bs (data_fault fl1 c0)
                    (all_values p c0) c0 sa).1
                 = (batch_insert_data bs (data_fault fl2 c0)
                      (all_values p c0) c0 sb).1)).
  { intros c0 sa sb Ha. apply batch_insert_data_agree; [exact Ha|].
    intros Hne. split; [apply Hsame, Hne | reflexivity]. }
  pose proof (Hstep Genre _ _ (agree_refl c x1 C1)) as [A2 G2].
  rewrite E2, E2' in A2, G2. cbn [fst snd] in A2, G2.
  pose proof (Hstep Company _ _ A2) as [A3 G3].
  rewrite E3, E3' in A3, G3. cbn [fst snd] in A3, G3.
  pose proof (Hstep Country _ _ A3) as [A4 G4].
  rewrite E4, E4' in A4, G4. cbn [fst snd] in A4, G4.
  pose proof (Hstep Language _ _ A4) as [A5 G5].
  rewrite E5, E5' in A5, G5. cbn [fst snd] in A5, G5.
  pose proof (Hstep Keyword _ _ A5) as [A6 G6].
  rewrite E6, E6' in A6, G6. cbn [fst snd] in A6, G6.
  assert (Hmap : forall c', c' <> c -> id_mappings r1 c' = id_mappings r2 c').
  { intros c' Hne. rewrite Hids, Hids'. destruct c'; cbn; auto. }
  intros c' Hne. split; [apply Hmap, Hne|].
  pose proof (run_outcome cy bs fl1 raw st) as O1.
  pose proof (run_outcome cy bs fl2 raw st) as O2.
  cbn zeta in O1, O2. fold r1 in O1. fold r2 in O2. rewrite O1, O2.
  destruct (build_relationships_ok (id_mappings r1) (recency_filter cy raw)
              (fun _ => [])) as (rels1 & B1 & S1).
  destruct (build_relationships_ok (id_mappings r2) (recency_filter cy raw)
              (fun _ => [])) as (rels2 & B2 & S2).
  rewrite Hrels, B1, Hrels', B2. unfold link_all. rewrite <- Hv.
  destruct (link_all_agree c bs fl1 fl2 (valid_movie_ids r1) rels1 rels2
              categories) with (s1 := linking r1) (s2 := linking r2)
    as (_ & _ & _ & Hfin).
  - intros c0 Hc0. split; [apply Hsame, Hc0|].
    rewrite S1, S2, (Hmap c0 Hc0). reflexivity.
  - exact A6.
  - cbn [close tables]. destruct (Hfin c' Hne) as (Hr & Hj & _). auto.
Qed.

(** C7. When the body of a category's resolution raises, the resolution
    still returns: the session is rolled back to the tables as committed
    before the call, and the mapping is empty if the read raised and holds
    the rows read otherwise, all of them rows of the committed table. And
    what a run computes and stores for any other category (its mapping, its
    reference table, its join table) is the same whether or not category [c]
    met a fault. *)
Theorem resolver_failure_isolated cy bs fl fl' raw st c data s :
  clean s ->
  resolution_raises bs (data_fault fl c) data c s ->
  same_faults_but c fl fl' ->
  (committed (batch_insert_data bs (data_fault fl c) data c s).2 = committed s
   /\ clean (batch_insert_data bs (data_fault fl c) data c s).2
   /\ (data_fault fl c = FailRead ->
       (batch_insert_data bs (data_fault fl c) data c s).1 = ∅)
   /\ (data_fault fl c <> FailRead ->
       (batch_insert_data bs (data_fault fl c) data c s).1 = seeded c s)
   /\ forall k v,
        (batch_insert_data bs (data_fault fl c) data c s).1 !! k = Some v ->
        (v, k) ∈ reference (committed s) c)
  /\ forall c', c' <> c ->
       id_mappings (batch_import_movies cy bs fl raw st) c'
       = id_mappings (batch_import_movies cy bs fl' raw st) c'
       /\ reference (tables (outcome (batch_import_movies cy bs fl raw st))) c'
          = reference
              (tables (outcome (batch_import_movies cy bs fl' raw st))) c'
       /\ joins (tables (outcome (batch_import_movies cy bs fl raw st))) c'
          = joins (tables (outcome (batch_import_movies cy bs fl' raw st))) c'.
Proof.
  intros Hc Hraise Hsame. split; [| apply run_isolated, Hsame].
  destruct (batch_insert_data bs (data_fault fl c) data c s) as [m s'] eqn:E.
  cbn [fst snd].
  pose proof (batch_insert_data_frame _ _ _ _ _ _ _ E Hc) as (Hc' & _).
  pose proof (batch_insert_data_sound _ _ _ _ _ _ _ E Hc) as Hsound.
  apply batch_insert_data_cases in E.
  assert (Hcom : committed s' = committed s
                 /\ (data_fault fl c = FailRead -> m = ∅)
                 /\ (data_fault fl c <> FailRead -> m = seeded c s)).
  { destruct E as [(Hf & -> & ->) | [(Hf & Hn & _) | (Hf & Hn & r & s1 & E & H)]].
    - cbn. repeat split; auto. congruence.
    - destruct Hraise as [Hr | [Hr _]]; contradiction.
    - destruct H as [(-> & -> & _) | (returned & -> & Hcm & _)].
      + apply value_pages_frame in E as (E1 & _). cbn.
        repeat split; auto. contradiction.
      + destruct Hraise as [Hr | (_ & r' & s1' & E' & [-> | Hr])];
          [contradiction | | contradiction].
        rewrite E in E'. discriminate. }
  destruct Hcom as (Hcom & Hm1 & Hm2).
  repeat split; auto.
  intros k v Hk. rewrite <- Hcom. apply Hsound, Hk.
Qed.

Lemma resolver_failure_isolated_witness :
  (batch_insert_data 1000 (FailInsert 0) {[ "Horror" ]} Genre
     (connect loaded)).1
  = seeded Genre (connect loaded)
  /\ reference
       (tables (outcome (batch_import_movies 2025 1000 genres_down [alien]
                           loaded))) Keyword
     = reference
         (tables (outcome (batch_import_movies 2025 1000 no_faults [alien]
                             loaded))) Keyword.
Proof.
  destruct (resolver_failure_isolated 2025 1000 genres_down no_faults [alien]
              loaded Genre {[ "Horror" ]} (connect loaded))
    as [(_ & _ & _ & Hm & _) Hiso].
  - reflexivity.
  - right. split.
    + vm_compute. discriminate.
    + exists Raise, (connect loaded). split.
      * vm_compute. reflexivity.
      * left. reflexivity.
  - split; [reflexivity|]. intros c0 Hc0. destruct c0; try contradiction;
      split; reflexivity.
  - split.
    + apply Hm. discriminate.
    + apply (Hiso Keyword). discriminate.
Defined.

(** ** Edges that reach the join table *)

Lemma insert_edge_rows_ok (edges : list (Z * Z)) (mids eids : list Z) :
  forall tbl,
    (forall e, e ∈ edges -> e.1 ∈ mids /\ e.2 ∈ eids) ->
    exists tbl',
      insert_edge_rows edges mids eids tbl = Ok tbl'
      /\ (forall x, x ∈ tbl -> x ∈ tbl')
      /\ (forall x, x ∈ edges -> x ∈ tbl').
Proof.
  induction edges as [|e edges IH]; intros tbl Hfk.
  - exists tbl. split; [reflexivity|]. split; [auto|].
    intros x Hx. inversion Hx.
  - assert (Hrest : forall x, x ∈ edges -> x.1 ∈ mids /\ x.2 ∈ eids)
      by (intros x Hx; apply Hfk, elem_of_cons; right; exact Hx).
    cbn [insert_edge_rows]. destruct (decide (e ∈ tbl)) as [Hin | Hnin].
    + rewrite bool_decide_eq_true_2 by exact Hin.
      destruct (IH tbl Hrest) as (tbl' & E & H1 & H2).
      exists tbl'. split; [exact E|]. split; [exact H1|].
      intros x Hx. apply elem_of_cons in Hx as [-> | Hx]; auto.
    + rewrite bool_decide_eq_false_2 by exact Hnin.
      destruct (Hfk e) as [Hm He]; [apply elem_of_cons; left; reflexivity|].
      rewrite !bool_decide_eq_true_2 by assumption. cbn [andb].
      destruct (IH (tbl ++ [e]) Hrest) as (tbl' & E & H1 & H2).
      exists tbl'. split; [exact E|]. split.
      * intros x Hx. apply H1, elem_of_app. left. exact Hx.
      * intros x Hx. apply elem_of_cons in Hx as [-> | Hx]; [|auto].
        apply H1, elem_of_app. right. apply elem_of_cons. left. reflexivity.
Qed.

Lemma edge_pages_ok c (pages : list (list (Z * Z))) :
  forall i s,
    (forall page, page ∈ pages -> page <> []) ->
    (forall page e, page ∈ pages -> e ∈ page ->
       e.1 ∈ map t_id (movies (working s))
       /\ e.2 ∈ map fst (reference (working s) c)) ->
    exists s',
      run_pages (insert_edges_statement c) NoFault i pages tt s = (Ok tt, s')
      /\ (forall x, x ∈ joins (working s) c -> x ∈ joins (working s') c)
      /\ (forall page e, page ∈ pages -> e ∈ page ->
            e ∈ joins (working s') c).
Proof.
  induction pages as [|page pages IH]; intros i s Hne Hfk.
  - exists s. split; [reflexivity|]. split; [auto|].
    intros page e Hp. inversion Hp.
  - cbn [run_pages].
    assert (Hhead : page ∈ page :: pages)
      by (apply elem_of_cons; left; reflexivity).
    destruct page as [|a page]; [destruct (Hne [] Hhead); reflexivity|].
    cbn [fails_at]. unfold bind.
    destruct (insert_edge_rows_ok (a :: page)
                (map t_id (movies (working s)))
                (map fst (reference (working s) c)) (joins (working s) c))
      as (tbl & E & H1 & H2).
    { intros e He. eapply Hfk; eauto. }
    unfold insert_edges_statement at 1. rewrite E.
    match goal with
    | |- context [run_pages _ _ _ pages tt ?x] => set (s1 := x)
    end.
    destruct (IH (S i) s1) as (s' & Erun & G1 & G2).
    + intros pg Hpg. apply Hne, elem_of_cons. right. exact Hpg.
    + intros pg e Hpg He. subst s1. cbn.
      apply (Hfk pg e); [apply elem_of_cons; right; exact Hpg | exact He].
    + exists s'. split; [exact Erun|].
      assert (Hs1 : joins (working s1) c = tbl).
      { subst s1. cbn. unfold update.
        destruct (decide (c = c)); [reflexivity | congruence]. }
      split.
      * intros x Hx. apply G1. rewrite Hs1. apply H1, Hx.
      * intros pg e Hpg He. apply elem_of_cons in Hpg as [-> | Hpg].
        -- apply G1. rewrite Hs1. apply H2, He.
        -- eapply G2; eauto.
Qed.

(** Without a storage fault, an edge whose movie is valid reaches the join
    table, provided the valid movies are in the movie table and the entity
    identifiers of the edges are in the reference table. *)
Lemma batch_insert_relationships_persists bs rels c (valid : gset Z) s e :
  (0 < bs)%nat ->
  clean s ->
  (forall x, x ∈ valid -> x ∈ map t_id (movies (committed s))) ->
  (forall x, x ∈ rels -> x.2 ∈ map fst (reference (committed s) c)) ->
  e ∈ rels ->
  e.1 ∈ valid ->
  e ∈ joins (committed (batch_insert_relationships bs NoFault rels c valid s))
        c.
Proof.
  intros Hbs Hc Hv Hr He Hev. unfold clean in Hc.
  unfold batch_insert_relationships, bind, execute_values.
  set (edges := List.filter (fun rel => bool_decide (rel.1 ∈ valid)) rels).
  assert (Hedges : forall x, x ∈ edges -> x ∈ rels /\ x.1 ∈ valid).
  { intros x Hx. apply elem_of_List_filter in Hx as [Hx Hb].
    split; [exact Hx|]. apply bool_decide_eq_true_1 in Hb. exact Hb. }
  destruct (edge_pages_ok c (paginate edges bs) 0 s) as (s' & E & _ & G).
  - intros page Hp. eapply paginate_nonempty; eauto.
  - intros page x Hp Hx. rewrite Hc.
    destruct (Hedges x) as [H1 H2]; [eapply paginate_elem; eauto|].
    split; [apply Hv, H2 | apply Hr, H1].
  - rewrite E. cbn.
    assert (Hin : e ∈ edges).
    { apply elem_of_List_filter. split; [exact He|].
      apply bool_decide_eq_true_2, Hev. }
    rewrite <- (paginate_concat edges bs Hbs) in Hin.
    apply list_elem_of_In, in_concat in Hin as (page & Hp & Hx).
    apply (G page e); apply list_elem_of_In; assumption.
Qed.

Lemma link_all_persists bs fl (valid : gset Z) rels c e (cs : list category) :
  (0 < bs)%nat ->
  relationships_fault fl c = NoFault ->
  NoDup cs ->
  c ∈ cs ->
  e ∈ rels c ->
  e.1 ∈ valid ->
  forall s,
    clean s ->
    (forall x, x ∈ valid -> x ∈ map t_id (movies (committed s))) ->
    (forall x, x ∈ rels c -> x.2 ∈ map fst (reference (committed s) c)) ->
    e ∈ joins (committed
                 (foldl (fun s c0 =>
                           batch_insert_relationships bs
                             (relationships_fault fl c0) (rels c0) c0 valid s)
                        s cs)) c.
Proof.
  intros Hbs Hf Hnd Hin He Hev.
  induction cs as [|c0 cs IH]; intros s Hc Hv Hr; [inversion Hin|].
  cbn [foldl]. apply NoDup_cons in Hnd as [Hnot Hnd].
  pose proof (batch_insert_relationships_frame bs (relationships_fault fl c0)
                (rels c0) c0 valid s Hc) as (C1 & _ & M1 & R1 & _).
  cbn zeta in C1, M1, R1.
  destruct (decide (c0 = c)) as [-> | Hne].
  - destruct (link_all_frame bs fl valid rels cs _ C1) as (_ & _ & _ & _ & J).
    cbn zeta in J. rewrite (J c Hnot), Hf.
    apply batch_insert_relationships_persists; auto.
  - apply IH; auto.
    + apply elem_of_cons in Hin as [-> | Hin]; [congruence | exact Hin].
    + rewrite M1. exact Hv.
    + rewrite R1. exact Hr.
Qed.

Lemma categories_nodup : NoDup categories.
Proof.
  unfold categories. repeat (apply NoDup_cons; split;
    [intros H; repeat (apply elem_of_cons in H as [H | H]; [discriminate|]);
     inversion H|]).
  apply NoDup_nil. constructor.
Qed.

Lemma categories_all c : c ∈ categories.
Proof.
  unfold categories. destruct c; repeat
    first [apply list_elem_of_here | apply list_elem_of_further].
Qed.

Lemma collect_skips (pre post : list MovieRecord) (movie : MovieRecord) :
  admissible movie = false ->
  collect (pre ++ movie :: post) = collect (pre ++ post).
Proof.
  intros Ha. unfold collect. rewrite !foldl_app. cbn [foldl].
  unfold collect_step at 2. rewrite Ha. reflexivity.
Qed.

Lemma record_edge_in c ids movie v p e :
  field c movie = Some v ->
  p ∈ Py.split comma v ->
  ids !! Py.strip p = Some e ->
  (movie_id movie, e) ∈ record_edges c ids movie.
Proof.
  intros Hf Hp He. unfold record_edges, mention_edges. rewrite Hf.
  apply list_elem_of_omap. exists p. split; [exact Hp|].
  rewrite He. reflexivity.
Qed.

Lemma category_edge_in c ids (df : list MovieRecord) x :
  x ∈ category_edges c ids df ->
  exists movie q,
    movie ∈ df /\ x.1 = movie_id movie /\ ids !! Py.strip q = Some x.2.
Proof.
  unfold category_edges. intros H.
  apply list_elem_of_In, in_flat_map in H as (movie & Hm & H).
  apply list_elem_of_In in Hm, H. unfold record_edges in H.
  destruct (field c movie) as [v|]; [|inversion H].
  apply list_elem_of_omap in H as (q & _ & H).
  destruct (ids !! Py.strip q) as [e|] eqn:E; [|discriminate].
  cbn in H. injection H as <-. exists movie, q. auto.
Qed.

(** C10, as stated, fails. On the store [two_films], without any storage
    fault, the frame [[clash; stray_horror]] has the inadmissible record
    [stray_horror] with the mention "Horror", which the mapping sends to 3,
    and with the identifier 1, which is in the movie table before and after
    the run. Yet [clash] violates the primary key, the movie upsert returns
    the empty set, and the edge (1, 3) is not persisted. *)
Lemma present_movie_is_not_enough :
  admissible stray_horror = false
  /\ frame (batch_import_movies 2025 1000 no_faults [clash; stray_horror]
              two_films)
     = [clash; stray_horror]
  /\ field Genre stray_horror = Some "Horror"
  /\ id_mappings
       (batch_import_movies 2025 1000 no_faults [clash; stray_horror]
          two_films) Genre !! Py.strip "Horror" = Some 3
  /\ movie_id stray_horror ∈ map t_id (movies (tables two_films))
  /\ movie_id stray_horror
       ∈ map t_id
           (movies (tables (outcome
                      (batch_import_movies 2025 1000 no_faults
                         [clash; stray_horror] two_films))))
  /\ valid_movie_ids
       (batch_import_movies 2025 1000 no_faults [clash; stray_horror]
          two_films) = ∅
  /\ (movie_id stray_horror, 3)
       ∉ joins (tables (outcome
                  (batch_import_movies 2025 1000 no_faults
                     [clash; stray_horror] two_films))) Genre.
Proof.
  split; [reflexivity|]. split; [reflexivity|]. split; [reflexivity|].
  split; [vm_compute; reflexivity|].
  split; [apply (bool_decide_unpack _); vm_compute; exact I|].
  split; [apply (bool_decide_unpack _); vm_compute; exact I|].
  split; [vm_compute; reflexivity|].
  apply (bool_decide_unpack _). vm_compute. exact I.
Qed.

(** C10, amended. A record that fails the test of line 158 adds nothing to
    the accumulators: the first loop gives the same result with and without
    it. The second loop walks it all the same: each of its mentions whose
    trimmed value is a key of the category's mapping yields an edge, and
    that edge reaches the join table when the record's identifier is in the
    set the movie upsert returned (not merely in the movie table), the page
    size is not zero and the category's insert meets no storage fault. *)
Theorem inadmissible_record_still_linked cy bs fl raw st movie c v p e :
  movie ∈ recency_filter cy raw ->
  admissible movie = false ->
  field c movie = Some v ->
  p ∈ Py.split comma v ->
  id_mappings (batch_import_movies cy bs fl raw st) c !! Py.strip p = Some e ->
  (forall pre post,
      collect (pre ++ movie :: post) = collect (pre ++ post))
  /\ (exists rels,
        relationships (batch_import_movies cy bs fl raw st) = Ok rels
        /\ (movie_id movie, e) ∈ rels c)
  /\ ((0 < bs)%nat ->
      relationships_fault fl c = NoFault ->
      movie_id movie ∈ valid_movie_ids (batch_import_movies cy bs fl raw st) ->
      (movie_id movie, e)
        ∈ joins (tables (outcome (batch_import_movies cy bs fl raw st))) c).
Proof.
  intros Hin Ha Hf Hp He.
  split; [intros pre post; apply collect_skips, Ha|].
  destruct (run_steps cy bs fl raw st)
    as (s1 & g & s2 & co & s3 & cu & s4 & l & s5 & k & _ & _ & _ & _ & _
        & _ & _ & _ & _ & Hrels).
  destruct (build_relationships_ok
              (id_mappings (batch_import_movies cy bs fl raw st))
              (recency_filter cy raw) (fun _ => [])) as (rels & B & S).
  assert (Hedge : (movie_id movie, e) ∈ rels c).
  { rewrite S. cbn. unfold category_edges.
    apply list_elem_of_In, in_flat_map. exists movie.
    split; apply list_elem_of_In; [exact Hin|].
    eapply record_edge_in; eauto. }
  split; [exists rels; split; [congruence | exact Hedge]|].
  intros Hbs Hnf Hvalid.
  pose proof (run_outcome cy bs fl raw st) as Ho. cbn zeta in Ho.
  rewrite Ho, Hrels, B. cbn [close tables]. unfold link_all.
  destruct (run_linking cy bs fl raw st) as (Hc & _ & _ & Hv & Hsound).
  apply link_all_persists; auto using categories_nodup, categories_all.
  - intros x Hx. destruct Hv as [Hv | Hv]; rewrite Hv in Hx.
    + apply not_elem_of_empty in Hx. contradiction.
    + apply elem_of_list_to_set in Hx. exact Hx.
  - intros x Hx. rewrite S in Hx. cbn in Hx.
    apply category_edge_in in Hx as (m & q & _ & _ & Hq).
    apply Hsound in Hq. apply elem_of_map. exists (x.2, Py.strip q).
    split; [reflexivity | exact Hq].
Qed.

Lemma inadmissible_record_still_linked_witness :
  (1, 2) ∈ joins (tables (outcome
                    (batch_import_movies 2025 1000 no_faults
                       [alpha; beta; stray] empty_store))) Genre
  /\ category_edges Genre
       (id_mappings
          (batch_import_movies 2025 1000 no_faults [alpha; beta; stray]
             empty_store) Genre)
       [alpha; beta]
     = [(1, 1); (2, 2)].
Proof.
  destruct (inadmissible_record_still_linked 2025 1000 no_faults
              [alpha; beta; stray] empty_store stray Genre "Drama" "Drama" 2)
    as (_ & _ & H).
  - apply elem_of_List_filter. split; [|reflexivity].
    do 2 apply list_elem_of_further. apply list_elem_of_here.
  - reflexivity.
  - reflexivity.
  - apply list_elem_of_here.
  - vm_compute. reflexivity.
  - split.
    + apply H; [lia | reflexivity |].
      apply (bool_decide_unpack _). vm_compute. exact I.
    + vm_compute. reflexivity.
Defined.

(** ** Pages of the resolver's insert *)

Lemma insert_value_rows_all (values : list string) :
  forall tbl next returned tbl' next',
    insert_value_rows values tbl next = (returned, tbl', next') ->
    (forall v, v ∈ values -> exists id, (id, v) ∈ tbl')
    /\ (length returned <= length values)%nat.
Proof.
  induction values as [|v values IH]; intros tbl next returned tbl' next' H.
  - cbn in H. injection H as <- <- <-. split; [|cbn; lia].
    intros v Hv. inversion Hv.
  - pose proof (insert_value_rows_spec _ _ _ _ _ _ H) as [Hsub _].
    cbn [insert_value_rows] in H.
    destruct (existsb (fun row => String.eqb row.2 v) tbl) eqn:Ex.
    + destruct (IH _ _ _ _ _ H) as [H1 H2]. split; [|cbn; lia].
      intros x Hx. apply elem_of_cons in Hx as [-> | Hx]; [|auto].
      apply existsb_exists in Ex as ([id n] & Hin & Heq).
      cbn in Heq. apply String.eqb_eq in Heq. subst n.
      exists id. apply Hsub, list_elem_of_In, Hin.
    + destruct (insert_value_rows values (tbl ++ [(next, v)]) (next + 1))
        as [[ret t] n] eqn:E.
      injection H as <- <- <-.
      pose proof (insert_value_rows_spec _ _ _ _ _ _ E) as [Hsub' _].
      destruct (IH _ _ _ _ _ E) as [H1 H2]. split; [|cbn; lia].
      intros x Hx. apply elem_of_cons in Hx as [-> | Hx]; [|auto].
      exists next. apply Hsub', elem_of_app. right.
      apply elem_of_cons. left. reflexivity.
Qed.

Lemma value_pages_ok c (pages : list (list string)) :
  forall i cursor s,
    (forall page, page ∈ pages -> page <> []) ->
    exists returned s',
      run_pages (insert_values_statement c) NoFault i pages cursor s
      = (Ok returned, s')
      /\ (forall row, row ∈ reference (working s) c ->
                      row ∈ reference (working s') c)
      /\ (forall page v, page ∈ pages -> v ∈ page ->
            exists id, (id, v) ∈ reference (working s') c)
      /\ (pages <> [] ->
          exists page, page ∈ pages /\ (length returned <= length page)%nat).
Proof.
  induction pages as [|page pages IH]; intros i cursor s Hne.
  - exists cursor, s. split; [reflexivity|]. split; [auto|]. split.
    + intros page v Hp. inversion Hp.
    + congruence.
  - cbn [run_pages].
    assert (Hhead : page ∈ page :: pages)
      by (apply elem_of_cons; left; reflexivity).
    destruct page as [|a page]; [destruct (Hne [] Hhead); reflexivity|].
    cbn [fails_at]. unfold bind, insert_values_statement at 1.
    destruct (insert_value_rows (a :: page) (reference (working s) c)
                (sequence s c)) as [[ret tbl] next] eqn:E.
    pose proof (insert_value_rows_spec _ _ _ _ _ _ E) as [Hsub _].
    pose proof (insert_value_rows_all _ _ _ _ _ _ E) as [Hall Hlen].
    match goal with
    | |- context [run_pages _ _ _ pages ret ?x] => set (s1 := x)
    end.
    assert (Hs1 : reference (working s1) c = tbl).
    { subst s1. cbn. unfold update.
      destruct (decide (c = c)); [reflexivity | congruence]. }
    destruct (IH (S i) ret s1) as (returned & s' & Erun & G1 & G2 & G3).
    { intros pg Hpg. apply Hne, elem_of_cons. right. exact Hpg. }
    exists returned, s'. split; [exact Erun|]. split; [|split].
    + intros row Hrow. apply G1. rewrite Hs1. apply Hsub, Hrow.
    + intros pg v Hpg Hv. apply elem_of_cons in Hpg as [-> | Hpg].
      * destruct (Hall v Hv) as [id Hid]. exists id. apply G1.
        rewrite Hs1. exact Hid.
      * eapply G2; eauto.
    + intros _. destruct pages as [|pg pages'].
      * cbn in Erun. injection Erun as <- <-.
        exists (a :: page). split; [exact Hhead | exact Hlen].
      * destruct G3 as (pg' & Hpg' & Hl); [discriminate|].
        exists pg'. split; [apply elem_of_cons; right; exact Hpg' | exact Hl].
Qed.

Lemma merge_rows_size (rows : list (Z * string)) :
  forall m : gmap string Z,
    (size (merge_rows m rows) <= size m + length rows)%nat.
Proof.
  unfold merge_rows. induction rows as [|[i n] rows IH]; intros m.
  - cbn. lia.
  - cbn [foldl length]. etransitivity; [apply IH|].
    cbn [fst snd]. rewrite map_size_insert.
    destruct (m !! n); unfold id; lia.
Qed.

(** X16. On an empty reference table and without storage fault, every
    value of the set is persisted, yet the mapping returned has at most
    [batch_size] keys: the rows returned by all pages but the last are
    lost. *)
Lemma resolver_mapping_bounded bs data c s :
  (0 < bs)%nat ->
  clean s ->
  reference (committed s) c = [] ->
  (forall v, v ∈ data ->
     exists id,
       (id, v) ∈ reference
                  (committed (batch_insert_data bs NoFault data c s).2) c)
  /\ (size (batch_insert_data bs NoFault data c s).1 <= bs)%nat.
Proof.
  intros Hbs Hc Hempty. unfold clean in Hc.
  assert (Hseed : seeded c s = ∅)
    by (unfold seeded; rewrite Hc, Hempty; reflexivity).
  assert (Hnew : new_values data ∅ = elements data).
  { unfold new_values. induction (elements data) as [|v l IH];
      [reflexivity|].
    cbn [List.filter]. rewrite bool_decide_eq_true_2 by apply lookup_empty.
    rewrite IH. reflexivity. }
  unfold batch_insert_data, select_reference.
  fold (seeded c s). rewrite Hseed, Hnew.
  destruct (elements data) as [|v0 l] eqn:Eel.
  - cbn [fst snd]. split; [|rewrite map_size_empty; lia].
    intros v Hv. apply elem_of_elements in Hv. rewrite Eel in Hv.
    inversion Hv.
  - unfold bind, execute_values.
    destruct (value_pages_ok c (paginate (v0 :: l) bs) 0 [] s)
      as (returned & s1 & E & _ & G2 & G3).
    { intros page Hp. eapply paginate_nonempty; eauto. }
    rewrite E. cbn [commit]. unfold ret. cbn [fst snd]. split.
    + intros v Hv. apply elem_of_elements in Hv. rewrite Eel in Hv.
      rewrite <- (paginate_concat (v0 :: l) bs Hbs) in Hv.
      apply list_elem_of_In, in_concat in Hv as (page & Hp & Hx).
      apply (G2 page v); apply list_elem_of_In; assumption.
    + destruct G3 as (page & Hp & Hl).
      { intros Hnil.
        pose proof (paginate_concat (v0 :: l) bs Hbs) as Hcat.
        rewrite Hnil in Hcat. discriminate. }
      pose proof (merge_rows_size returned ∅) as Hsz.
      rewrite map_size_empty in Hsz.
      assert (length page <= bs)%nat; [|lia].
      unfold paginate in Hp. destruct bs as [|n]; [lia|].
      eapply pages_of_length, Hp.
Qed.

(** ** Pages and the mapping: two runs with a page size of one *)

(** C2. With a page size of one and two new values the resolver persists
    both values, and returns a mapping that has the value of the last page
    only: the persisted value "Action" is not a key of it. *)
Theorem resolver_forgets_earlier_pages :
  reference
    (committed (batch_insert_data 1 NoFault two_genres Genre
                  (connect empty_store)).2) Genre
  = [(1, "Action"); (2, "Drama")]
  /\ (batch_insert_data 1 NoFault two_genres Genre (connect empty_store)).1
     !! "Action" = None
  /\ (batch_insert_data 1 NoFault two_genres Genre (connect empty_store)).1
     !! "Drama" = Some 2.
Proof. repeat split; vm_compute; reflexivity. Qed.

(** C1. With a page size of one, the first run on the empty store links
    [heat] to the genre of the last page only; the second run on the same
    input reads both genres back and adds the edge the first run dropped, so
    the join table after two runs is not the join table after one. *)
Theorem rerun_adds_edges :
  reference (tables (outcome first_run)) Genre = [(1, "Action"); (2, "Drama")]
  /\ joins (tables (outcome first_run)) Genre = [(1, 2)]
  /\ reference (tables (outcome second_run)) Genre
     = [(1, "Action"); (2, "Drama")]
  /\ joins (tables (outcome second_run)) Genre = [(1, 2); (1, 1)]
  /\ joins (tables (outcome second_run)) Genre
     <> joins (tables (outcome first_run)) Genre.
Proof.
  assert (H1 : joins (tables (outcome first_run)) Genre = [(1, 2)])
    by (vm_compute; reflexivity).
  assert (H2 : joins (tables (outcome second_run)) Genre = [(1, 2); (1, 1)])
    by (vm_compute; reflexivity).
  repeat split; try (vm_compute; reflexivity).
  rewrite H1, H2. discriminate.
Qed.

(** ** The resolver when one page suffices *)

Lemma merge_rows_keeps (rows : list (Z * string)) :
  forall (m : gmap string Z) (k : string),
    is_Some (m !! k) \/ (exists i, (i, k) ∈ rows) ->
    is_Some (merge_rows m rows !! k).
Proof.
  unfold merge_rows. induction rows as [|[i n] rows IH]; intros m k H.
  - destruct H as [H | [j H]]; [exact H | inversion H].
  - cbn [foldl]. apply IH. cbn [fst snd].
    destruct (decide (n = k)) as [-> | Hne].
    + left. rewrite lookup_insert_eq. eexists. reflexivity.
    + rewrite lookup_insert_ne by exact Hne.
      destruct H as [H | [j H]]; [left; exact H|].
      apply elem_of_cons in H as [H | H]; [congruence|].
      right. exists j. exact H.
Qed.

Lemma insert_value_rows_fresh (values : list string) :
  forall tbl next returned tbl' next',
    NoDup values ->
    (forall v row, v ∈ values -> row ∈ tbl -> row.2 <> v) ->
    insert_value_rows values tbl next = (returned, tbl', next') ->
    forall v, v ∈ values -> exists id, (id, v) ∈ returned.
Proof.
  induction values as [|v values IH];
    intros tbl next returned tbl' next' Hnd Hfresh H x Hx.
  - inversion Hx.
  - apply NoDup_cons in Hnd as [Hnot Hnd].
    cbn [insert_value_rows] in H.
    destruct (existsb (fun row => String.eqb row.2 v) tbl) eqn:Ex.
    { apply existsb_exists in Ex as (row & Hin & Heq).
      apply String.eqb_eq in Heq.
      destruct (Hfresh v row); auto.
      - apply elem_of_cons. left. reflexivity.
      - apply list_elem_of_In, Hin. }
    destruct (insert_value_rows values (tbl ++ [(next, v)]) (next + 1))
      as [[ret t] n] eqn:E.
    injection H as <- <- <-.
    apply elem_of_cons in Hx as [-> | Hx].
    + exists next. apply elem_of_cons. left. reflexivity.
    + assert (Hfresh' : forall y row,
                 y ∈ values -> row ∈ tbl ++ [(next, v)] -> row.2 <> y).
      { intros y row Hy Hrow. apply elem_of_app in Hrow as [Hrow | Hrow].
        - apply Hfresh; [apply elem_of_cons; right; exact Hy | exact Hrow].
        - apply list_elem_of_singleton in Hrow. subst row. cbn.
          intros ->. contradiction. }
      destruct (IH _ _ _ _ _ Hnd Hfresh' E x Hx) as [id Hid].
      exists id. apply elem_of_cons. right. exact Hid.
Qed.

Lemma paginate_one_page {A : Type} (l : list A) (page_size : nat) :
  l <> [] -> (length l <= page_size)%nat -> paginate l page_size = [l].
Proof.
  intros Hne Hlen. unfold paginate.
  destruct page_size as [|n]; [destruct l; [congruence | cbn in Hlen; lia]|].
  destruct l as [|a l]; [congruence|].
  cbn [length pages_of]. rewrite take_ge, drop_ge by exact Hlen.
  destruct (length l); reflexivity.
Qed.

(** X17. Without a storage fault, and when the values to insert fit in one
    page, every value of the set is a key of the mapping, mapped to the
    identifier of its row in the table. *)
Lemma resolver_complete_one_page bs data c s :
  clean s ->
  (length (new_values data (seeded c s)) <= bs)%nat ->
  forall v,
    v ∈ data ->
    exists id,
      (batch_insert_data bs NoFault data c s).1 !! v = Some id
      /\ (id, v) ∈ reference
                     (committed (batch_insert_data bs NoFault data c s).2) c.
Proof.
  intros Hc Hlen v Hv.
  destruct (batch_insert_data bs NoFault data c s) as [m s'] eqn:E.
  cbn [fst snd].
  assert (Hsome : is_Some (m !! v)).
  { revert E. unfold batch_insert_data, select_reference.
    fold (seeded c s).
    destruct (seeded c s !! v) as [i|] eqn:Eseed.
    - destruct (new_values data (seeded c s)) as [|n0 ns];
        [intros [= <- _]; rewrite Eseed; eexists; reflexivity|].
      unfold bind.
      destruct (execute_values (insert_values_statement c) NoFault
                  (n0 :: ns) bs [] s) as [[returned|] s1];
        cbn; intros [= <- _].
      + apply merge_rows_keeps. left. rewrite Eseed. eexists. reflexivity.
      + rewrite Eseed. eexists. reflexivity.
    - assert (Hnew : v ∈ new_values data (seeded c s)).
      { apply elem_of_List_filter. split; [apply elem_of_elements, Hv|].
        apply bool_decide_eq_true_2, Eseed. }
      destruct (new_values data (seeded c s)) as [|n0 ns] eqn:Enew;
        [inversion Hnew|].
      unfold bind, execute_values.
      rewrite paginate_one_page by (congruence || exact Hlen).
      cbn [run_pages fails_at]. unfold bind, insert_values_statement at 1.
      destruct (insert_value_rows (n0 :: ns) (reference (working s) c)
                  (sequence s c)) as [[ret tbl] next] eqn:Eins.
      cbn. intros [= <- _]. apply merge_rows_keeps. right.
      eapply insert_value_rows_fresh; [| | exact Eins | exact Hnew].
      + rewrite <- Enew. unfold new_values.
        apply NoDup_ListNoDup, List.NoDup_filter, NoDup_ListNoDup,
          NoDup_elements.
      + intros y [i n] Hy Hrow Heq. cbn in Heq. subst n.
        assert (Hy' : y ∈ new_values data (seeded c s))
          by (rewrite Enew; exact Hy).
        apply elem_of_List_filter in Hy' as [_ Hb].
        apply bool_decide_eq_true_1 in Hb.
        assert (Hs : is_Some (seeded c s !! y)).
        { unfold seeded. apply merge_rows_keeps. right. exists i. exact Hrow. }
        rewrite Hb in Hs. destruct Hs as [? Hs]. discriminate. }
  destruct Hsome as [id Hid]. exists id. split; [exact Hid|].
  eapply batch_insert_data_sound; eauto.
Qed.

(** * Further properties of the importer *)

(** ** Each helper and its own table *)

(** X18. Each helper ends without a pending write and changes only its own
    table: the movie upsert leaves the reference tables, the join tables
    and the generators alone; a resolution leaves the movie table, the join
    tables and the other categories' reference tables and generators alone;
    a relationship insert leaves the movie table, the reference tables, the
    generators and the other categories' join tables alone. *)
Theorem helpers_keep_to_their_table bs f s :
  clean s ->
  (forall ms,
      clean (batch_insert_movies bs f ms s).2
      /\ sequence (batch_insert_movies bs f ms s).2 = sequence s
      /\ reference (committed (batch_insert_movies bs f ms s).2)
         = reference (committed s)
      /\ joins (committed (batch_insert_movies bs f ms s).2)
         = joins (committed s))
  /\ (forall data c,
         clean (batch_insert_data bs f data c s).2
         /\ movies (committed (batch_insert_data bs f data c s).2)
            = movies (committed s)
         /\ joins (committed (batch_insert_data bs f data c s).2)
            = joins (committed s)
         /\ forall c', c' <> c ->
              reference (committed (batch_insert_data bs f data c s).2) c'
              = reference (committed s) c'
              /\ sequence (batch_insert_data bs f data c s).2 c'
                 = sequence s c')
  /\ (forall rels c valid,
         clean (batch_insert_relationships bs f rels c valid s)
         /\ sequence (batch_insert_relationships bs f rels c valid s)
            = sequence s
         /\ movies (committed (batch_insert_relationships bs f rels c valid s))
            = movies (committed s)
         /\ reference
              (committed (batch_insert_relationships bs f rels c valid s))
            = reference (committed s)
         /\ forall c', c' <> c ->
              joins (committed (batch_insert_relationships bs f rels c valid s))
                c'
              = joins (committed s) c').
Proof.
  intros Hc. split; [|split].
  - intros ms. destruct (batch_insert_movies bs f ms s) as [v s'] eqn:E.
    exact (batch_insert_movies_frame _ _ _ _ _ _ E Hc).
  - intros data c. destruct (batch_insert_data bs f data c s) as [m s'] eqn:E.
    exact (batch_insert_data_frame _ _ _ _ _ _ _ E Hc).
  - intros rels c valid.
    exact (batch_insert_relationships_frame bs f rels c valid s Hc).
Qed.

Lemma helpers_keep_to_their_table_witness :
  new_values {[ "Horror" ]} (seeded Genre (connect loaded)) = ["Horror"]
  /\ sequence
       (batch_insert_data 1000 FailCommit {[ "Horror" ]} Genre
          (connect loaded)).2 Genre
     = generator loaded Genre + 1
  /\ clean
       (batch_insert_data 1000 FailCommit {[ "Horror" ]} Genre
          (connect loaded)).2
  /\ movies
       (committed
          (batch_insert_data 1000 FailCommit {[ "Horror" ]} Genre
             (connect loaded)).2)
     = movies (tables loaded)
  /\ joins
       (committed
          (batch_insert_data 1000 FailCommit {[ "Horror" ]} Genre
             (connect loaded)).2)
     = joins (tables loaded)
  /\ reference
       (committed
          (batch_insert_data 1000 FailCommit {[ "Horror" ]} Genre
             (connect loaded)).2) Keyword
     = reference (tables loaded) Keyword.
Proof.
  split; [vm_compute; reflexivity|]. split; [vm_compute; reflexivity|].
  destruct (helpers_keep_to_their_table 1000 FailCommit (connect loaded))
    as (_ & H & _).
  - reflexivity.
  - destruct (H {[ "Horror" ]} Genre) as (Hc & Hm & Hj & Hr).
    split; [exact Hc|]. split; [exact Hm|]. split; [exact Hj|].
    apply (Hr Keyword). discriminate.
Defined.

(** ** Rows are only ever added *)

Lemma insert_edge_rows_spec (edges : list (Z * Z)) (mids eids : list Z) :
  forall tbl tbl',
    insert_edge_rows edges mids eids tbl = Ok tbl' ->
    (forall x, x ∈ tbl -> x ∈ tbl')
    /\ (forall x, x ∈ tbl' -> x ∈ tbl \/ x ∈ edges)
    /\ (NoDup tbl -> NoDup tbl').
Proof.
  induction edges as [|e edges IH]; intros tbl tbl' H.
  - cbn in H. injection H as <-. repeat split; auto.
  - cbn [insert_edge_rows] in H.
    destruct (decide (e ∈ tbl)) as [Hin | Hnin].
    + rewrite bool_decide_eq_true_2 in H by exact Hin.
      destruct (IH _ _ H) as (H1 & H2 & H3). repeat split; auto.
      intros x Hx. destruct (H2 x Hx) as [? | ?]; [left; auto|].
      right. apply elem_of_cons. right. assumption.
    + rewrite bool_decide_eq_false_2 in H by exact Hnin.
      destruct (bool_decide (e.1 ∈ mids) && bool_decide (e.2 ∈ eids));
        [|discriminate].
      destruct (IH _ _ H) as (H1 & H2 & H3). repeat split.
      * intros x Hx. apply H1, elem_of_app. left. exact Hx.
      * intros x Hx. destruct (H2 x Hx) as [Hx' | Hx'].
        -- apply elem_of_app in Hx' as [Hx' | Hx']; [left; exact Hx'|].
           apply list_elem_of_singleton in Hx'. subst x.
           right. apply elem_of_cons. left. reflexivity.
        -- right. apply elem_of_cons. right. exact Hx'.
      * intros Hnd. apply H3, NoDup_app. split; [exact Hnd|].
        split; [|apply NoDup_singleton].
        intros x Hx Hx'. apply list_elem_of_singleton in Hx'. subst x.
        contradiction.
Qed.

Lemma edge_pages_spec c bs f edges s r s1 :
  execute_values (insert_edges_statement c) f edges bs tt s = (r, s1) ->
  (forall x, x ∈ joins (working s) c -> x ∈ joins (working s1) c)
  /\ (forall x, x ∈ joins (working s1) c ->
        x ∈ joins (working s) c \/ x ∈ edges)
  /\ (NoDup (joins (working s) c) -> NoDup (joins (working s1) c)).
Proof.
  intros H.
  apply (run_pages_invariant (insert_edges_statement c)
           (fun y =>
              (forall x, x ∈ joins (working s) c -> x ∈ joins (working y) c)
              /\ (forall x, x ∈ joins (working y) c ->
                    x ∈ joins (working s) c \/ x ∈ edges)
              /\ (NoDup (joins (working s) c) -> NoDup (joins (working y) c))))
    in H; auto.
  intros page y r0 y' Hp (I1 & I2 & I3) Hst.
  unfold insert_edges_statement in Hst.
  destruct (insert_edge_rows page (map t_id (movies (working y)))
              (map fst (reference (working y) c)) (joins (working y) c))
    as [tbl|] eqn:E.
  - injection Hst as <- <-. cbn. unfold update.
    destruct (decide (c = c)); [|congruence].
    apply insert_edge_rows_spec in E as (E1 & E2 & E3). repeat split; auto.
    intros x Hx. destruct (E2 x Hx) as [Hx' | Hx']; [auto|].
    right. eapply paginate_elem; eauto.
  - injection Hst as <- <-. auto.
Qed.

(** The join table of a category after its relationship insert. *)
Lemma batch_insert_relationships_table bs f rels c valid s :
  clean s ->
  (forall x, x ∈ joins (committed s) c ->
             x ∈ joins (committed
                          (batch_insert_relationships bs f rels c valid s)) c)
  /\ (forall x,
         x ∈ joins (committed
                      (batch_insert_relationships bs f rels c valid s)) c ->
         x ∈ joins (committed s) c \/ (x ∈ rels /\ x.1 ∈ valid))
  /\ (NoDup (joins (committed s) c) ->
      NoDup (joins (committed
                      (batch_insert_relationships bs f rels c valid s)) c)).
Proof.
  intros Hc. unfold clean in Hc.
  destruct (batch_insert_relationships_cases bs f rels c valid s)
    as (r & s1 & E & H).
  pose proof (edge_pages_frame _ _ _ _ _ _ _ _ E) as (Ecom & _).
  apply edge_pages_spec in E as (E1 & E2 & E3). rewrite Hc in E1, E2, E3.
  destruct H as [(-> & _) | (_ & _ & ->)]; cbn.
  - rewrite Ecom. repeat split; auto.
  - repeat split; auto.
    intros x Hx. destruct (E2 x Hx) as [Hx' | Hx']; [auto|].
    right. apply elem_of_List_filter in Hx' as [Hx' Hb].
    split; [exact Hx'|]. apply bool_decide_eq_true_1 in Hb. exact Hb.
Qed.

Lemma link_all_table bs fl valid rels c (cs : list category) :
  forall s,
    clean s ->
    (forall x, x ∈ joins (committed s) c ->
               x ∈ joins (committed
                            (foldl (fun s c0 =>
                                      batch_insert_relationships bs
                                        (relationships_fault fl c0) (rels c0)
                                        c0 valid s) s cs)) c)
    /\ (forall x,
           x ∈ joins (committed
                        (foldl (fun s c0 =>
                                  batch_insert_relationships bs
                                    (relationships_fault fl c0) (rels c0)
                                    c0 valid s) s cs)) c ->
           x ∈ joins (committed s) c \/ (x ∈ rels c /\ x.1 ∈ valid))
    /\ (NoDup (joins (committed s) c) ->
        NoDup (joins (committed
                        (foldl (fun s c0 =>
                                  batch_insert_relationships bs
                                    (relationships_fault fl c0) (rels c0)
                                    c0 valid s) s cs)) c)).
Proof.
  induction cs as [|c0 cs IH]; intros s Hc; [cbn; auto|].
  cbn [foldl].
  pose proof (batch_insert_relationships_frame bs (relationships_fault fl c0)
                (rels c0) c0 valid s Hc) as (C1 & _ & _ & _ & J1).
  cbn zeta in C1, J1.
  destruct (IH _ C1) as (G1 & G2 & G3).
  destruct (decide (c0 = c)) as [-> | Hne].
  - destruct (batch_insert_relationships_table bs (relationships_fault fl c)
                (rels c) c valid s Hc) as (T1 & T2 & T3).
    repeat split; auto.
    intros x Hx. destruct (G2 x Hx) as [Hx' | Hx']; auto.
  - assert (Hne' : c <> c0) by congruence.
    rewrite (J1 c Hne') in G1, G2, G3. repeat split; auto.
Qed.

Lemma insert_value_rows_only (values : list string) :
  forall tbl next returned tbl' next',
    insert_value_rows values tbl next = (returned, tbl', next') ->
    (forall x, x ∈ tbl' -> x ∈ tbl \/ x.2 ∈ values)
    /\ (NoDup (map snd tbl) -> NoDup (map snd tbl')).
Proof.
  induction values as [|v values IH]; intros tbl next returned tbl' next' H.
  - cbn in H. injection H as <- <- <-. auto.
  - cbn [insert_value_rows] in H.
    destruct (existsb (fun row => String.eqb row.2 v) tbl) eqn:Ex.
    + destruct (IH _ _ _ _ _ H) as [H1 H2]. split; [|exact H2].
      intros x Hx. destruct (H1 x Hx) as [? | ?]; [left; auto|].
      right. apply elem_of_cons. right. assumption.
    + destruct (insert_value_rows values (tbl ++ [(next, v)]) (next + 1))
        as [[ret t] n] eqn:E.
      injection H as <- <- <-. destruct (IH _ _ _ _ _ E) as [H1 H2]. split.
      * intros x Hx. destruct (H1 x Hx) as [Hx' | Hx'].
        -- apply elem_of_app in Hx' as [Hx' | Hx']; [left; exact Hx'|].
           apply list_elem_of_singleton in Hx'. subst x.
           right. apply elem_of_cons. left. reflexivity.
        -- right. apply elem_of_cons. right. exact Hx'.
      * intros Hnd. apply H2. rewrite map_app. apply NoDup_app.
        split; [exact Hnd|]. split; [|apply NoDup_singleton].
        intros nm Hn Hn'. apply list_elem_of_singleton in Hn'. cbn in Hn'.
        subst nm. apply elem_of_map in Hn as ([i nm] & Heq & Hrow).
        cbn in Heq. subst nm.
        pose proof (existsb_false_elem _ _ Ex _ Hrow) as Hf. cbn in Hf.
        rewrite String.eqb_refl in Hf. discriminate.
Qed.

Lemma value_pages_only c bs f values cursor s r s1 :
  execute_values (insert_values_statement c) f values bs cursor s = (r, s1) ->
  (forall x, x ∈ reference (working s) c -> x ∈ reference (working s1) c)
  /\ (forall x, x ∈ reference (working s1) c ->
        x ∈ reference (working s) c \/ x.2 ∈ values)
  /\ (NoDup (map snd (reference (working s) c)) ->
      NoDup (map snd (reference (working s1) c))).
Proof.
  intros H.
  apply (run_pages_invariant (insert_values_statement c)
           (fun y =>
              (forall x, x ∈ reference (working s) c ->
                         x ∈ reference (working y) c)
              /\ (forall x, x ∈ reference (working y) c ->
                    x ∈ reference (working s) c \/ x.2 ∈ values)
              /\ (NoDup (map snd (reference (working s) c)) ->
                  NoDup (map snd (reference (working y) c)))))
    in H; auto.
  intros page y r0 y' Hp (I1 & I2 & I3) Hst.
  unfold insert_values_statement in Hst.
  destruct (insert_value_rows page (reference (working y) c) (sequence y c))
    as [[ret tbl] next] eqn:E.
  injection Hst as <- <-. cbn. unfold update.
  destruct (decide (c = c)); [|congruence].
  pose proof (insert_value_rows_spec _ _ _ _ _ _ E) as [S1 _].
  apply insert_value_rows_only in E as [E1 E2]. repeat split; auto.
  intros x Hx. destruct (E1 x Hx) as [Hx' | Hx']; [auto|].
  right. eapply paginate_elem; eauto.
Qed.

(** The reference table of a category after its resolution. *)
Lemma batch_insert_data_table bs f data c s :
  clean s ->
  (forall x, x ∈ reference (committed (batch_insert_data bs f data c s).2) c ->
             x ∈ reference (committed s) c \/ x.2 ∈ data)
  /\ (NoDup (map snd (reference (committed s) c)) ->
      NoDup (map snd
               (reference (committed (batch_insert_data bs f data c s).2) c))).
Proof.
  intros Hc. unfold clean in Hc.
  destruct (batch_insert_data bs f data c s) as [m s'] eqn:E. cbn [snd].
  apply batch_insert_data_cases in E
    as [(_ & _ & ->) | [(_ & _ & _ & ->) | (_ & _ & r & s1 & E & H)]];
    [cbn; auto | auto |].
  pose proof (value_pages_frame _ _ _ _ _ _ _ _ E) as (Ecom & _).
  apply value_pages_only in E as (_ & E2 & E3). rewrite Hc in E2, E3.
  destruct H as [(_ & -> & _) | (returned & _ & _ & _ & ->)]; cbn.
  - rewrite Ecom. auto.
  - split; [|exact E3].
    intros x Hx. destruct (E2 x Hx) as [Hx' | Hx']; [auto|].
    right. apply elem_of_List_filter in Hx' as [Hx' _].
    apply elem_of_elements, Hx'.
Qed.

Lemma insert_movie_rows_keys (rows : list MovieTuple) :
  forall tbl tbl',
    insert_movie_rows rows tbl = Ok tbl' ->
    (NoDup (map t_id tbl) -> NoDup (map t_id tbl'))
    /\ (NoDup (omap t_imdb_id tbl) -> NoDup (omap t_imdb_id tbl')).
Proof.
  induction rows as [|r rows IH]; intros tbl tbl' H.
  - cbn in H. injection H as <-. auto.
  - cbn [insert_movie_rows] in H.
    destruct (existsb (fun x => same_code (t_imdb_id x) (t_imdb_id r)) tbl)
      eqn:Ecode; [eapply IH; eauto|].
    destruct (existsb (fun x => t_id x =? t_id r) tbl) eqn:Eid;
      [discriminate|].
    destruct (IH _ _ H) as [H1 H2]. split.
    + intros Hnd. apply H1. rewrite map_app. apply NoDup_app.
      split; [exact Hnd|]. split; [|apply NoDup_singleton].
      intros i Hi Hi'. apply list_elem_of_singleton in Hi'. cbn in Hi'.
      subst i. apply elem_of_map in Hi as (x & Heq & Hx).
      pose proof (existsb_false_elem _ _ Eid _ Hx) as Hf. cbn in Hf.
      rewrite <- Heq, Z.eqb_refl in Hf. discriminate.
    + intros Hnd. apply H2. rewrite omap_app. apply NoDup_app.
      split; [exact Hnd|]. split.
      * intros code Hc Hc'. apply list_elem_of_omap in Hc as (x & Hx & Ex).
        apply list_elem_of_omap in Hc' as (y & Hy & Ey).
        apply list_elem_of_singleton in Hy. subst y.
        pose proof (existsb_false_elem _ _ Ecode _ Hx) as Hf. cbn in Hf.
        rewrite Ex, Ey in Hf. cbn in Hf. rewrite String.eqb_refl in Hf.
        discriminate.
      * cbn. destruct (t_imdb_id r); [apply NoDup_singleton | apply NoDup_nil;
          constructor].
Qed.

Lemma movie_pages_keys bs f ms s r s1 :
  execute_values insert_movies_statement f ms bs tt s = (r, s1) ->
  (NoDup (map t_id (movies (working s))) ->
   NoDup (map t_id (movies (working s1))))
  /\ (NoDup (omap t_imdb_id (movies (working s))) ->
      NoDup (omap t_imdb_id (movies (working s1)))).
Proof.
  intros H.
  apply (run_pages_invariant insert_movies_statement
           (fun y =>
              (NoDup (map t_id (movies (working s))) ->
               NoDup (map t_id (movies (working y))))
              /\ (NoDup (omap t_imdb_id (movies (working s))) ->
                  NoDup (omap t_imdb_id (movies (working y))))))
    in H; auto.
  intros page y r0 y' _ [I1 I2] Hst. unfold insert_movies_statement in Hst.
  destruct (insert_movie_rows page (movies (working y))) as [tbl|] eqn:E.
  - injection Hst as <- <-. cbn.
    apply insert_movie_rows_keys in E as [E1 E2]. auto.
  - injection Hst as <- <-. auto.
Qed.

Lemma batch_insert_movies_keys bs f ms s :
  clean s ->
  (NoDup (map t_id (movies (committed s))) ->
   NoDup (map t_id (movies (committed (batch_insert_movies bs f ms s).2))))
  /\ (NoDup (omap t_imdb_id (movies (committed s))) ->
      NoDup (omap t_imdb_id
               (movies (committed (batch_insert_movies bs f ms s).2)))).
Proof.
  intros Hc. unfold clean in Hc.
  destruct (batch_insert_movies bs f ms s) as [valid s'] eqn:E. cbn [snd].
  apply batch_insert_movies_cases in E as (r & s1 & E & H).
  pose proof (movie_pages_frame _ _ _ _ _ _ _ E) as (Ecom & _).
  apply movie_pages_keys in E as [E1 E2]. rewrite Hc in E1, E2.
  destruct H as [(_ & _ & ->) | [(_ & _ & _ & ->) |
                [(_ & _ & _ & ->) | (_ & _ & _ & _ & ->)]]]; cbn;
    rewrite ?Ecom; auto.
Qed.

(** The resolution of one category inside a run: the session it starts in
    holds the category's reference table as the store had it, and the table
    it leaves is the one linking sees. *)
Lemma run_resolution cy bs fl raw st c :
  exists s0,
    clean s0
    /\ reference (committed s0) c = reference (tables st) c
    /\ sequence s0 c = generator st c
    /\ id_mappings (batch_import_movies cy bs fl raw st) c
       = (batch_insert_data bs (data_fault fl c)
            (all_values (prepared (batch_import_movies cy bs fl raw st)) c)
            c s0).1
    /\ reference (committed (linking (batch_import_movies cy bs fl raw st))) c
       = reference
           (committed
              (batch_insert_data bs (data_fault fl c)
                 (all_values (prepared (batch_import_movies cy bs fl raw st))
                    c) c s0).2) c.
Proof.
  destruct (run_steps cy bs fl raw st)
    as (s1 & g & s2 & co & s3 & cu & s4 & l & s5 & k & E1 & E2 & E3 & E4
        & E5 & E6 & _ & Hp & Hids & _).
  set (r := batch_import_movies cy bs fl raw st) in *.
  rewrite <- Hp in E1, E2, E3, E4, E5, E6.
  pose proof (connect_clean st) as C0.
  pose proof (batch_insert_movies_frame _ _ _ _ _ _ E1 C0) as (C1 & Q1 & R1 & _).
  pose proof (batch_insert_data_frame _ _ _ _ _ _ _ E2 C1) as (C2 & _ & _ & F2).
  pose proof (batch_insert_data_frame _ _ _ _ _ _ _ E3 C2) as (C3 & _ & _ & F3).
  pose proof (batch_insert_data_frame _ _ _ _ _ _ _ E4 C3) as (C4 & _ & _ & F4).
  pose proof (batch_insert_data_frame _ _ _ _ _ _ _ E5 C4) as (C5 & _ & _ & F5).
  pose proof (batch_insert_data_frame _ _ _ _ _ _ _ E6 C5) as (C6 & _ & _ & F6).
  cbn in R1, Q1.
  assert (Hsq : forall c' c0 sa sb,
             (forall c', c' <> c0 ->
                reference (committed sb) c' = reference (committed sa) c'
                /\ sequence sb c' = sequence sa c') ->
             c' <> c0 ->
             sequence sb c' = sequence sa c').
  { intros c' c0 sa sb F Hne. apply F, Hne. }
  assert (Hup : forall c' c0 sa sb,
             (forall c', c' <> c0 ->
                reference (committed sb) c' = reference (committed sa) c'
                /\ sequence sb c' = sequence sa c') ->
             c' <> c0 ->
             reference (committed sb) c' = reference (committed sa) c').
  { intros c' c0 sa sb F Hne. apply F, Hne. }
  rewrite Hids. destruct c; cbn [by_category].
  - exists s1. rewrite E2. cbn [fst snd]. repeat split; auto.
    + rewrite R1. reflexivity.
    + rewrite Q1. reflexivity.
    + rewrite (Hup _ _ _ _ F6), (Hup _ _ _ _ F5), (Hup _ _ _ _ F4),
        (Hup _ _ _ _ F3); auto; discriminate.
  - exists s2. rewrite E3. cbn [fst snd]. repeat split; auto.
    + rewrite (Hup _ _ _ _ F2), R1; auto; discriminate.
    + rewrite (Hsq _ _ _ _ F2), Q1; auto; discriminate.
    + rewrite (Hup _ _ _ _ F6), (Hup _ _ _ _ F5), (Hup _ _ _ _ F4);
        auto; discriminate.
  - exists s3. rewrite E4. cbn [fst snd]. repeat split; auto.
    + rewrite (Hup _ _ _ _ F3), (Hup _ _ _ _ F2), R1; auto; discriminate.
    + rewrite (Hsq _ _ _ _ F3), (Hsq _ _ _ _ F2), Q1; auto; discriminate.
    + rewrite (Hup _ _ _ _ F6), (Hup _ _ _ _ F5); auto; discriminate.
  - exists s4. rewrite E5. cbn [fst snd]. repeat split; auto.
    + rewrite (Hup _ _ _ _ F4), (Hup _ _ _ _ F3), (Hup _ _ _ _ F2), R1;
        auto; discriminate.
    + rewrite (Hsq _ _ _ _ F4), (Hsq _ _ _ _ F3), (Hsq _ _ _ _ F2), Q1;
        auto; discriminate.
    + rewrite (Hup _ _ _ _ F6); auto; discriminate.
  - exists s5. rewrite E6. cbn [fst snd]. repeat split; auto.
    + rewrite (Hup _ _ _ _ F5), (Hup _ _ _ _ F4), (Hup _ _ _ _ F3),
        (Hup _ _ _ _ F2), R1; auto; discriminate.
    + rewrite (Hsq _ _ _ _ F5), (Hsq _ _ _ _ F4), (Hsq _ _ _ _ F3),
        (Hsq _ _ _ _ F2), Q1; auto; discriminate.
Qed.

(** The join table of a category after a run. *)
Lemma run_joins cy bs fl raw st c :
  exists rels,
    relationships (batch_import_movies cy bs fl raw st) = Ok rels
    /\ (forall c0, rels c0
                   = category_edges c0
                       (id_mappings (batch_import_movies cy bs fl raw st) c0)
                       (frame (batch_import_movies cy bs fl raw st)))
    /\ (forall x, x ∈ joins (tables st) c ->
          x ∈ joins (tables (outcome (batch_import_movies cy bs fl raw st))) c)
    /\ (forall x,
           x ∈ joins (tables (outcome (batch_import_movies cy bs fl raw st))) c
           -> x ∈ joins (tables st) c
              \/ (x ∈ rels c
                  /\ x.1 ∈ valid_movie_ids
                             (batch_import_movies cy bs fl raw st)))
    /\ (NoDup (joins (tables st) c) ->
        NoDup (joins (tables (outcome (batch_import_movies cy bs fl raw st)))
                 c)).
Proof.
  destruct (run_steps cy bs fl raw st)
    as (s1 & g & s2 & co & s3 & cu & s4 & l & s5 & k & _ & _ & _ & _ & _
        & _ & Hf & _ & _ & Hrels).
  destruct (build_relationships_ok
              (id_mappings (batch_import_movies cy bs fl raw st))
              (recency_filter cy raw) (fun _ => [])) as (rels & B & S).
  exists rels. split; [congruence|]. split; [intros c0; rewrite Hf; apply S|].
  pose proof (run_outcome cy bs fl raw st) as Ho. cbn zeta in Ho.
  rewrite Ho, Hrels, B. cbn [close tables]. unfold link_all.
  destruct (run_linking cy bs fl raw st) as (Hc & Hj & _).
  destruct (link_all_table bs fl
              (valid_movie_ids (batch_import_movies cy bs fl raw st)) rels c
              categories _ Hc) as (G1 & G2 & G3).
  rewrite Hj in G1, G2, G3. auto.
Qed.

Lemma run_movies cy bs fl raw st :
  exists s1,
    batch_insert_movies bs (movies_fault fl)
      (movies_list (prepared (batch_import_movies cy bs fl raw st)))
      (connect st)
    = (valid_movie_ids (batch_import_movies cy bs fl raw st), s1)
    /\ movies (tables (outcome (batch_import_movies cy bs fl raw st)))
       = movies (committed s1).
Proof.
  destruct (run_steps cy bs fl raw st)
    as (s1 & g & s2 & co & s3 & cu & s4 & l & s5 & k & E1 & E2 & E3 & E4
        & E5 & E6 & _ & Hp & _).
  rewrite <- Hp in E1. exists s1. split; [exact E1|].
  destruct (run_outcome_frame cy bs fl raw st) as [-> _].
  pose proof (connect_clean st) as C0.
  pose proof (batch_insert_movies_frame _ _ _ _ _ _ E1 C0) as (C1 & _).
  pose proof (batch_insert_data_frame _ _ _ _ _ _ _ E2 C1) as (C2 & M2 & _).
  pose proof (batch_insert_data_frame _ _ _ _ _ _ _ E3 C2) as (C3 & M3 & _).
  pose proof (batch_insert_data_frame _ _ _ _ _ _ _ E4 C3) as (C4 & M4 & _).
  pose proof (batch_insert_data_frame _ _ _ _ _ _ _ E5 C4) as (C5 & M5 & _).
  pose proof (batch_insert_data_frame _ _ _ _ _ _ _ E6 C5) as (C6 & M6 & _).
  congruence.
Qed.

(** X1. A run only adds rows: whatever the faults, every row of the movie
    table, of a reference table and of a join table before the run is in
    that table after it. *)
Theorem run_keeps_rows cy bs fl raw st :
  (forall row,
      row ∈ movies (tables st) ->
      row ∈ movies (tables (outcome (batch_import_movies cy bs fl raw st))))
  /\ (forall c row,
         row ∈ reference (tables st) c ->
         row ∈ reference
                 (tables (outcome (batch_import_movies cy bs fl raw st))) c)
  /\ (forall c e,
         e ∈ joins (tables st) c ->
         e ∈ joins (tables (outcome (batch_import_movies cy bs fl raw st))) c).
Proof.
  split; [|split].
  - intros row Hrow. destruct (run_outcome_frame cy bs fl raw st) as [-> _].
    destruct (run_linking cy bs fl raw st) as (_ & _ & (extra & -> & _) & _).
    apply elem_of_app. left. exact Hrow.
  - intros c row Hrow. destruct (run_outcome_frame cy bs fl raw st) as [_ ->].
    destruct (run_resolution cy bs fl raw st c) as (s0 & C0 & R0 & _ & _ & ->).
    match goal with
    | |- context [batch_insert_data ?a ?b ?d ?e ?g] =>
        destruct (batch_insert_data a b d e g) as [m s'] eqn:E
    end.
    cbn [snd]. eapply batch_insert_data_grows; eauto.
    rewrite R0. exact Hrow.
  - intros c e He. destruct (run_joins cy bs fl raw st c)
      as (rels & _ & _ & G1 & _). apply G1, He.
Qed.

(** X2. A run keeps the uniqueness constraints of the tables, whatever the
    faults: if before the run no two movie rows share an identifier or a
    reference code, no two rows of a reference table share their natural
    string and no join table holds an edge twice, then the same holds after
    the run. *)
Theorem run_keeps_keys cy bs fl raw st :
  well_keyed (tables st) ->
  well_keyed (tables (outcome (batch_import_movies cy bs fl raw st))).
Proof.
  intros (K1 & K2 & K3). unfold well_keyed.
  destruct (run_movies cy bs fl raw st) as (s1 & E1 & ->).
  destruct (batch_insert_movies_keys bs (movies_fault fl)
              (movies_list (prepared (batch_import_movies cy bs fl raw st)))
              (connect st) (connect_clean st)) as [M1 M2].
  rewrite E1 in M1, M2. cbn [snd] in M1, M2.
  split; [apply M1, K1|]. split; [apply M2, K2|].
  intros c. destruct (K3 c) as [Kr Kj]. split.
  - destruct (run_outcome_frame cy bs fl raw st) as [_ ->].
    destruct (run_resolution cy bs fl raw st c) as (s0 & C0 & R0 & _ & _ & ->).
    apply batch_insert_data_table; [exact C0|]. rewrite R0. exact Kr.
  - destruct (run_joins cy bs fl raw st c) as (rels & _ & _ & _ & _ & G).
    apply G, Kj.
Qed.

Lemma run_keeps_keys_witness :
  well_keyed
    (tables (outcome (batch_import_movies 2025 1 genres_down
                        [heat; untitled; alien] empty_store))).
Proof.
  apply (run_keeps_keys 2025 1 genres_down [heat; untitled; alien]
           empty_store).
  split; [apply NoDup_nil; constructor|].
  split; [apply NoDup_nil; constructor|].
  intros c. split; apply NoDup_nil; constructor.
Defined.

(** X3. Every row a run adds to the movie table has a non-empty title, a
    non-empty reference code and a release date whose year is at least
    [current_year - 10]. *)
Theorem added_movies_are_recent cy bs fl raw st row :
  row ∈ movies (tables (outcome (batch_import_movies cy bs fl raw st))) ->
  row ∈ movies (tables st)
  \/ (Py.truthy (t_title row) = true
      /\ Py.truthy (t_imdb_id row) = true
      /\ exists d, t_release_date row = Some d /\ cy - 10 <= year d).
Proof.
  intros Hrow. destruct (run_outcome_frame cy bs fl raw st) as [Hm _].
  rewrite Hm in Hrow.
  destruct (run_linking cy bs fl raw st) as (_ & _ & (extra & He & Hex) & _).
  rewrite He in Hrow. apply elem_of_app in Hrow as [Hrow | Hrow];
    [left; exact Hrow | right].
  destruct (Hex _ Hrow) as [Hp _].
  apply prepared_movies in Hp as (movie & _ & Hr & Ha & ->).
  unfold admissible in Ha. apply andb_prop in Ha as [Ha _].
  apply andb_prop in Ha as [Ht Hi]. cbn. repeat split; auto.
  unfold recent in Hr. destruct (release_date movie) as [d|]; [|discriminate].
  exists d. split; [reflexivity|]. apply Z.leb_le, Hr.
Qed.

Lemma added_movies_are_recent_witness :
  movie_tuple heat ∈ movies (tables empty_store)
  \/ (Py.truthy (t_title (movie_tuple heat)) = true
      /\ Py.truthy (t_imdb_id (movie_tuple heat)) = true
      /\ exists d,
           t_release_date (movie_tuple heat) = Some d /\ 2025 - 10 <= year d).
Proof.
  apply (added_movies_are_recent 2025 1000 no_faults [heat] empty_store).
  vm_compute. apply list_elem_of_here.
Defined.

(** X4. Every row a run adds to a reference table carries a value of the
    category's accumulator: nothing else is ever inserted. *)
Theorem added_entities_are_accumulated cy bs fl raw st c row :
  row ∈ reference (tables (outcome (batch_import_movies cy bs fl raw st))) c ->
  row ∈ reference (tables st) c
  \/ row.2 ∈ all_values (prepared (batch_import_movies cy bs fl raw st)) c.
Proof.
  intros Hrow. destruct (run_outcome_frame cy bs fl raw st) as [_ Hr].
  rewrite Hr in Hrow.
  destruct (run_resolution cy bs fl raw st c) as (s0 & C0 & R0 & _ & _ & Hl).
  rewrite Hl in Hrow.
  apply batch_insert_data_table in Hrow; [|exact C0].
  rewrite R0 in Hrow. exact Hrow.
Qed.

Lemma added_entities_are_accumulated_witness :
  (2, "Drama") ∈ reference (tables empty_store) Genre
  \/ "Drama" ∈ all_values
                 (prepared (batch_import_movies 2025 1000 no_faults [heat]
                              empty_store)) Genre.
Proof.
  apply (added_entities_are_accumulated 2025 1000 no_faults [heat]
           empty_store Genre (2, "Drama")).
  vm_compute. apply list_elem_of_further, list_elem_of_here.
Defined.

(** ** Edges *)

Lemma run_valid_in_table cy bs fl raw st x :
  x ∈ valid_movie_ids (batch_import_movies cy bs fl raw st) ->
  x ∈ map t_id
        (movies (committed (linking (batch_import_movies cy bs fl raw st)))).
Proof.
  intros Hx. destruct (run_linking cy bs fl raw st) as (_ & _ & _ & Hv & _).
  destruct Hv as [Hv | Hv]; rewrite Hv in Hx.
  - apply not_elem_of_empty in Hx. contradiction.
  - apply elem_of_list_to_set in Hx. exact Hx.
Qed.

Lemma run_edges_in_table cy bs fl raw st c x :
  x ∈ category_edges c (id_mappings (batch_import_movies cy bs fl raw st) c)
        (frame (batch_import_movies cy bs fl raw st)) ->
  x.2 ∈ map fst
          (reference
             (committed (linking (batch_import_movies cy bs fl raw st))) c).
Proof.
  intros Hx. destruct (run_linking cy bs fl raw st) as (_ & _ & _ & _ & Hs).
  apply category_edge_in in Hx as (m & q & _ & _ & Hq).
  apply Hs in Hq. apply elem_of_map. exists (x.2, Py.strip q).
  split; [reflexivity | exact Hq].
Qed.

(** X5. Referential integrity: whatever the faults, every edge a run adds
    to a join table has its movie identifier in the movie table and its
    entity identifier in the category's reference table as the run leaves
    them. *)
Theorem added_edges_have_endpoints cy bs fl raw st c e :
  e ∈ joins (tables (outcome (batch_import_movies cy bs fl raw st))) c ->
  e ∈ joins (tables st) c
  \/ (e.1 ∈ map t_id
              (movies (tables (outcome (batch_import_movies cy bs fl raw st))))
      /\ e.2 ∈ map fst
                 (reference
                    (tables (outcome (batch_import_movies cy bs fl raw st)))
                    c)).
Proof.
  intros He.
  destruct (run_joins cy bs fl raw st c) as (rels & _ & S & _ & G2 & _).
  destruct (G2 e He) as [H | [Hr Hv]]; [left; exact H | right].
  destruct (run_outcome_frame cy bs fl raw st) as [-> ->]. split.
  - apply run_valid_in_table, Hv.
  - apply run_edges_in_table. rewrite <- S. exact Hr.
Qed.

Lemma added_edges_have_endpoints_witness :
  (1, 2) ∈ joins (tables empty_store) Genre
  \/ ((1, 2).1 ∈ map t_id
                   (movies (tables (outcome
                              (batch_import_movies 2025 1000 no_faults
                                 [alpha; beta; stray] empty_store))))
      /\ (1, 2).2 ∈ map fst
                      (reference
                         (tables (outcome
                                    (batch_import_movies 2025 1000 no_faults
                                       [alpha; beta; stray] empty_store)))
                         Genre)).
Proof.
  apply (added_edges_have_endpoints 2025 1000 no_faults [alpha; beta; stray]
           empty_store Genre (1, 2)).
  apply (bool_decide_unpack _). vm_compute. exact I.
Defined.

(** X6. When a category's relationship insert meets no storage fault (and
    the page size is not zero), the category's join table after the run
    holds exactly the edges it held before and the edges the second loop
    built whose movie identifier is valid: no built edge with a valid movie
    is lost, and nothing else is added. *)
Theorem linked_edges_exactly cy bs fl raw st c :
  (0 < bs)%nat ->
  relationships_fault fl c = NoFault ->
  exists rels,
    relationships (batch_import_movies cy bs fl raw st) = Ok rels
    /\ forall e,
         e ∈ joins (tables (outcome (batch_import_movies cy bs fl raw st))) c
         <-> e ∈ joins (tables st) c
             \/ (e ∈ rels c
                 /\ e.1 ∈ valid_movie_ids
                            (batch_import_movies cy bs fl raw st)).
Proof.
  intros Hbs Hnf.
  destruct (run_joins cy bs fl raw st c) as (rels & B & S & G1 & G2 & _).
  exists rels. split; [exact B|]. intros e. split; [apply G2|].
  intros [He | [Hr Hv]]; [apply G1, He|].
  pose proof (run_outcome cy bs fl raw st) as Ho. cbn zeta in Ho.
  rewrite Ho, B. cbn [close tables]. unfold link_all.
  destruct (run_linking cy bs fl raw st) as (Hc & _).
  apply link_all_persists; auto using categories_nodup, categories_all.
  - intros x Hx. apply run_valid_in_table, Hx.
  - intros x Hx. apply run_edges_in_table. rewrite <- S. exact Hx.
Qed.

Lemma linked_edges_exactly_witness :
  joins (tables (outcome
           (batch_import_movies 2025 1000 no_faults [alpha; beta]
              empty_store))) Genre
  = [(1, 1); (2, 2)]
  /\ exists rels,
       relationships
         (batch_import_movies 2025 1000 no_faults [alpha; beta] empty_store)
       = Ok rels
       /\ forall e,
            e ∈ joins (tables (outcome
                         (batch_import_movies 2025 1000 no_faults
                            [alpha; beta] empty_store))) Genre
            <-> e ∈ joins (tables empty_store) Genre
                \/ (e ∈ rels Genre
                    /\ e.1 ∈ valid_movie_ids
                               (batch_import_movies 2025 1000 no_faults
                                  [alpha; beta] empty_store)).
Proof.
  split; [vm_compute; reflexivity|].
  apply (linked_edges_exactly 2025 1000 no_faults [alpha; beta] empty_store
           Genre); [lia | reflexivity].
Defined.

(** ** Canonical values *)

Lemma lstrip_length s : (String.length (Py.lstrip s) <= String.length s)%nat.
Proof.
  induction s as [|a s IH]; cbn; [lia|].
  destruct (Py.isspace a); cbn; lia.
Qed.

Lemma lstrip_chars s x :
  In x (list_ascii_of_string (Py.lstrip s)) -> In x (list_ascii_of_string s).
Proof.
  induction s as [|a s IH]; cbn; [auto|].
  destruct (Py.isspace a); cbn; auto.
Qed.

Lemma rstrip_chars s x :
  In x (list_ascii_of_string (Py.rstrip s)) -> In x (list_ascii_of_string s).
Proof.
  induction s as [|a s IH]; cbn; [auto|].
  destruct (Py.rstrip s) as [|b r] eqn:E.
  - destruct (Py.isspace a); cbn; [intros [] | intros [H | []]; auto].
  - cbn. intros [H | H]; [left; exact H | right; apply IH; exact H].
Qed.

Lemma rstrip_idem s : Py.rstrip (Py.rstrip s) = Py.rstrip s.
Proof.
  induction s as [|a s IH]; [reflexivity|].
  cbn [Py.rstrip]. destruct (Py.rstrip s) as [|b r] eqn:E.
  - destruct (Py.isspace a) eqn:Ea; [reflexivity|].
    cbn. rewrite Ea. reflexivity.
  - cbn [Py.rstrip]. cbn [Py.rstrip] in IH. rewrite IH. reflexivity.
Qed.

Lemma lstrip_rstrip t :
  Py.lstrip t = t -> Py.lstrip (Py.rstrip t) = Py.rstrip t.
Proof.
  destruct t as [|a t]; [reflexivity|].
  cbn [Py.lstrip]. destruct (Py.isspace a) eqn:Ea.
  - intros H. pose proof (lstrip_length t) as Hl. rewrite H in Hl.
    cbn in Hl. lia.
  - intros _. cbn [Py.rstrip].
    destruct (Py.rstrip t); [rewrite Ea|]; cbn; rewrite Ea; reflexivity.
Qed.

Lemma lstrip_idem s : Py.lstrip (Py.lstrip s) = Py.lstrip s.
Proof.
  induction s as [|a s IH]; [reflexivity|].
  cbn [Py.lstrip]. destruct (Py.isspace a) eqn:Ea; [exact IH|].
  cbn. rewrite Ea. reflexivity.
Qed.

Lemma strip_idem s : Py.strip (Py.strip s) = Py.strip s.
Proof.
  unfold Py.strip. rewrite lstrip_rstrip by apply lstrip_idem.
  apply rstrip_idem.
Qed.

Lemma split_no_separator sep s p :
  p ∈ Py.split sep s -> ~ In sep (list_ascii_of_string p).
Proof.
  revert p. induction s as [|a s IH]; intros p Hp.
  - cbn in Hp. apply list_elem_of_singleton in Hp. subst p. intros [].
  - cbn [Py.split] in Hp. destruct (Ascii.eqb a sep) eqn:Ea.
    + apply elem_of_cons in Hp as [-> | Hp]; [intros [] | apply IH, Hp].
    + apply Ascii.eqb_neq in Ea. destruct (Py.split sep s) as [|q qs] eqn:E.
      * apply list_elem_of_singleton in Hp. subst p.
        cbn. intros [H | []]. congruence.
      * apply elem_of_cons in Hp as [-> | Hp].
        -- cbn. intros [H | H]; [congruence|].
           apply (IH q); [apply list_elem_of_here | exact H].
        -- apply IH. apply list_elem_of_further, Hp.
Qed.

(** X7. Every value a run accumulates for a category is canonical: it is
    left unchanged by [strip] (so it has no leading or trailing whitespace),
    and it contains no comma. *)
Theorem accumulated_values_are_canonical cy bs fl raw st c x :
  x ∈ all_values (prepared (batch_import_movies cy bs fl raw st)) c ->
  Py.strip x = x /\ ~ In comma (list_ascii_of_string x).
Proof.
  destruct (run_steps cy bs fl raw st)
    as (s1 & g & s2 & co & s3 & cu & s4 & l & s5 & k & _ & _ & _ & _ & _
        & _ & _ & -> & _).
  unfold collect. rewrite collect_values_from. cbn.
  intros [H | (movie & v & p & _ & _ & _ & Hp & ->)].
  - apply not_elem_of_empty in H. contradiction.
  - split; [apply strip_idem|].
    intros Hin. unfold Py.strip in Hin.
    apply rstrip_chars, lstrip_chars in Hin.
    exact (split_no_separator comma v p Hp Hin).
Qed.

Lemma accumulated_values_are_canonical_witness :
  Py.strip "crime" = "crime" /\ ~ In comma (list_ascii_of_string "crime").
Proof.
  apply (accumulated_values_are_canonical 2025 1000 no_faults [heat]
           empty_store Keyword "crime").
  apply (bool_decide_unpack _). vm_compute. exact I.
Defined.

(** ** Calling a helper again *)

(** Without a storage fault (and with a page size that is not zero) a
    resolution leaves every value of the set in the table, whatever the
    number of pages. *)
Lemma resolver_persists_all bs data c s v :
  clean s ->
  (0 < bs)%nat ->
  v ∈ data ->
  exists id,
    (id, v) ∈ reference (committed (batch_insert_data bs NoFault data c s).2) c.
Proof.
  intros Hc Hbs Hv.
  destruct (batch_insert_data bs NoFault data c s) as [m s'] eqn:E.
  cbn [snd].
  pose proof (batch_insert_data_grows _ _ _ _ _ _ _ E Hc) as Hgrow.
  unfold clean in Hc.
  destruct (seeded c s !! v) as [i|] eqn:Eseed.
  { exists i. apply Hgrow. rewrite <- Hc. apply seeded_lookup, Eseed. }
  assert (Hnew : v ∈ new_values data (seeded c s)).
  { apply elem_of_List_filter. split; [apply elem_of_elements, Hv|].
    apply bool_decide_eq_true_2, Eseed. }
  apply batch_insert_data_cases in E
    as [(Hf & _) | [(_ & Hn & _) | (_ & _ & r & s1 & E & H)]].
  - discriminate.
  - rewrite Hn in Hnew. inversion Hnew.
  - unfold execute_values in E.
    destruct (value_pages_ok c (paginate (new_values data (seeded c s)) bs)
                0 [] s) as (returned & s2 & E' & _ & G2 & _).
    { intros page Hp. eapply paginate_nonempty; eauto. }
    rewrite E' in E. injection E as <- <-.
    destruct H as [(_ & _ & [Hr | Hr]) | (ret & _ & _ & _ & ->)];
      [discriminate | discriminate |].
    cbn. rewrite <- (paginate_concat _ bs Hbs) in Hnew.
    apply list_elem_of_In, in_concat in Hnew as (page & Hp & Hx).
    apply (G2 page v); apply list_elem_of_In; assumption.
Qed.

(** X8. After a resolution that met no storage fault, resolving the same
    set again inserts nothing: the second call leaves the session as it is
    and returns the mapping read from the table, which has every value of
    the set as a key, mapped to the identifier of its row. *)
Theorem resolver_second_call bs f data c s :
  clean s ->
  (0 < bs)%nat ->
  f <> FailRead ->
  batch_insert_data bs f data c (batch_insert_data bs NoFault data c s).2
  = (seeded c (batch_insert_data bs NoFault data c s).2,
     (batch_insert_data bs NoFault data c s).2)
  /\ forall v,
       v ∈ data ->
       exists id,
         seeded c (batch_insert_data bs NoFault data c s).2 !! v = Some id
         /\ (id, v) ∈ reference
                        (committed (batch_insert_data bs NoFault data c s).2)
                        c.
Proof.
  intros Hc Hbs Hf.
  pose proof (fun v => resolver_persists_all bs data c s v Hc Hbs) as Hall.
  destruct (batch_insert_data bs NoFault data c s) as [m s1] eqn:E.
  cbn [snd] in *.
  pose proof (batch_insert_data_frame _ _ _ _ _ _ _ E Hc) as (Hc1 & _).
  unfold clean in Hc1.
  assert (Hkeys : forall v, v ∈ data -> is_Some (seeded c s1 !! v)).
  { intros v Hv. destruct (Hall v Hv) as [id Hid].
    unfold seeded. apply merge_rows_keeps. right. exists id.
    rewrite Hc1. exact Hid. }
  split.
  - assert (Hnone : new_values data (seeded c s1) = []).
    { unfold new_values. apply filter_none. intros v Hv.
      apply elem_of_elements, Hkeys in Hv as [i Hi].
      apply bool_decide_eq_false_2. rewrite Hi. discriminate. }
    destruct f; try congruence;
      unfold batch_insert_data, select_reference; cbv beta iota zeta;
      change (merge_rows ∅ (reference (working s1) c)) with (seeded c s1);
      rewrite Hnone; reflexivity.
  - intros v Hv. destruct (Hkeys v Hv) as [id Hid]. exists id.
    split; [exact Hid|]. rewrite <- Hc1. apply seeded_lookup, Hid.
Qed.

Lemma resolver_second_call_witness :
  batch_insert_data 1 NoFault two_genres Genre
    (batch_insert_data 1 NoFault two_genres Genre (connect empty_store)).2
  = (seeded Genre
       (batch_insert_data 1 NoFault two_genres Genre (connect empty_store)).2,
     (batch_insert_data 1 NoFault two_genres Genre (connect empty_store)).2).
Proof.
  apply (resolver_second_call 1 NoFault two_genres Genre
           (connect empty_store)); [reflexivity | lia | discriminate].
Defined.

Lemma database_eta d :
  {| movies := movies d; reference := reference d; joins := joins d |} = d.
Proof. destruct d. reflexivity. Qed.

Lemma session_eta s :
  {| committed := committed s; working := working s; sequence := sequence s |}
  = s.
Proof. destruct s. reflexivity. Qed.

Lemma insert_movie_rows_covers (rows : list MovieTuple) :
  forall tbl tbl',
    insert_movie_rows rows tbl = Ok tbl' ->
    forall r,
      r ∈ rows -> t_imdb_id r <> None ->
      existsb (fun x => same_code (t_imdb_id x) (t_imdb_id r)) tbl' = true.
Proof.
  induction rows as [|r0 rows IH]; intros tbl tbl' H r Hr Hcode;
    [inversion Hr|].
  pose proof (insert_movie_rows_appended _ (r0 :: rows) _ _
                (fun x Hx => Hx) H) as (extra & He & _).
  cbn [insert_movie_rows] in H.
  destruct (existsb (fun x => same_code (t_imdb_id x) (t_imdb_id r0)) tbl)
    eqn:Ecode.
  - apply elem_of_cons in Hr as [-> | Hr]; [|eapply IH; eauto].
    rewrite He, existsb_app, Ecode. reflexivity.
  - destruct (existsb (fun x => t_id x =? t_id r0) tbl); [discriminate|].
    apply elem_of_cons in Hr as [-> | Hr]; [|eapply IH; eauto].
    pose proof (insert_movie_rows_appended _ rows _ _ (fun x Hx => Hx) H)
      as (extra' & He' & _).
    rewrite He', !existsb_app. cbn.
    destruct (t_imdb_id r0) as [code|]; [|congruence].
    cbn. rewrite String.eqb_refl, orb_true_r. reflexivity.
Qed.

Lemma existsb_grows {A : Type} (p : A -> bool) (l k : list A) :
  existsb p l = true -> existsb p (l ++ k) = true.
Proof. intros H. rewrite existsb_app, H. reflexivity. Qed.

Lemma movie_pages_covers (pages : list (list MovieTuple)) :
  forall i s s1,
    run_pages insert_movies_statement NoFault i pages tt s = (Ok tt, s1) ->
    (exists extra, movies (working s1) = movies (working s) ++ extra)
    /\ forall page r,
         page ∈ pages -> r ∈ page -> t_imdb_id r <> None ->
         existsb (fun x => same_code (t_imdb_id x) (t_imdb_id r))
           (movies (working s1)) = true.
Proof.
  induction pages as [|page pages IH]; intros i s s1 H.
  - cbn in H. injection H as <-. split.
    + exists []. symmetry. apply app_nil_r.
    + intros page r Hp. inversion Hp.
  - cbn [run_pages] in H. destruct page as [|a page]; [discriminate|].
    cbn [fails_at] in H. unfold bind, insert_movies_statement at 1 in H.
    destruct (insert_movie_rows (a :: page) (movies (working s)))
      as [tbl|] eqn:E; [|discriminate].
    apply IH in H as [(extra & Hx) Hcov]. cbn in Hx.
    pose proof (insert_movie_rows_appended _ (a :: page) _ _
                  (fun x Hx => Hx) E) as (extra0 & He0 & _).
    split.
    + exists (extra0 ++ extra). rewrite Hx, He0, app_assoc. reflexivity.
    + intros pg r Hpg Hr Hcode. apply elem_of_cons in Hpg as [-> | Hpg].
      * rewrite Hx. apply existsb_grows.
        eapply insert_movie_rows_covers; eauto.
      * eapply Hcov; eauto.
Qed.

Lemma insert_movie_rows_skip (rows : list MovieTuple) (tbl : list MovieTuple) :
  (forall r, r ∈ rows ->
     existsb (fun x => same_code (t_imdb_id x) (t_imdb_id r)) tbl = true) ->
  insert_movie_rows rows tbl = Ok tbl.
Proof.
  induction rows as [|r rows IH]; intros H; [reflexivity|].
  cbn [insert_movie_rows]. rewrite (H r) by apply list_elem_of_here.
  apply IH. intros x Hx. apply H, list_elem_of_further, Hx.
Qed.

Lemma movie_pages_skip (pages : list (list MovieTuple)) :
  forall i s,
    (forall page, page ∈ pages -> page <> []) ->
    (forall page r, page ∈ pages -> r ∈ page ->
       existsb (fun x => same_code (t_imdb_id x) (t_imdb_id r))
         (movies (working s)) = true) ->
    run_pages insert_movies_statement NoFault i pages tt s = (Ok tt, s).
Proof.
  induction pages as [|page pages IH]; intros i s Hne Hall; [reflexivity|].
  cbn [run_pages].
  assert (Hhead : page ∈ page :: pages) by apply list_elem_of_here.
  destruct page as [|a page]; [destruct (Hne [] Hhead); reflexivity|].
  cbn [fails_at]. unfold bind, insert_movies_statement at 1.
  rewrite insert_movie_rows_skip by (intros r Hr; eapply Hall; eauto).
  unfold with_working. rewrite database_eta, session_eta.
  apply IH.
  - intros pg Hpg. apply Hne, list_elem_of_further, Hpg.
  - intros pg r Hpg Hr. eapply Hall; [apply list_elem_of_further|]; eauto.
Qed.

(** X9. After a movie upsert that returned, upserting the same tuples again
    inserts no row: when every tuple has a reference code, the second call
    leaves the movie table as the first left it and returns the same set of
    identifiers. *)
Theorem movie_upsert_second_call bs ms s s1 :
  (forall r, r ∈ ms -> t_imdb_id r <> None) ->
  execute_values insert_movies_statement NoFault ms bs tt s = (Ok tt, s1) ->
  batch_insert_movies bs NoFault ms s
  = (list_to_set (map t_id (movies (working s1))), persisted s1)
  /\ batch_insert_movies bs NoFault ms (persisted s1)
     = (list_to_set (map t_id (movies (working s1))), persisted s1).
Proof.
  intros Hcodes E. split.
  { unfold batch_insert_movies, bind. rewrite E. reflexivity. }
  assert (Hbs : (0 < bs)%nat).
  { destruct bs; [|lia]. rewrite execute_values_zero in E. discriminate. }
  unfold execute_values in E.
  apply movie_pages_covers in E as [_ Hcov].
  unfold batch_insert_movies, bind, execute_values.
  rewrite movie_pages_skip.
  - reflexivity.
  - intros page Hp. eapply paginate_nonempty; eauto.
  - intros page r Hp Hr. cbn. eapply Hcov; eauto.
    apply Hcodes. eapply paginate_elem; eauto.
Qed.

Lemma movie_upsert_second_call_witness :
  batch_insert_movies 1 NoFault [movie_tuple heat; movie_tuple alien]
    (persisted
       (execute_values insert_movies_statement NoFault
          [movie_tuple heat; movie_tuple alien] 1 tt
          (connect empty_store)).2)
  = batch_insert_movies 1 NoFault [movie_tuple heat; movie_tuple alien]
      (connect empty_store).
Proof.
  destruct (movie_upsert_second_call 1 [movie_tuple heat; movie_tuple alien]
              (connect empty_store)
              (execute_values insert_movies_statement NoFault
                 [movie_tuple heat; movie_tuple alien] 1 tt
                 (connect empty_store)).2) as [H1 H2].
  - intros r Hr. apply elem_of_cons in Hr as [-> | Hr]; [discriminate|].
    apply list_elem_of_singleton in Hr. subst r. discriminate.
  - vm_compute. reflexivity.
  - rewrite H2, H1. reflexivity.
Defined.

Lemma insert_edge_rows_covers (edges : list (Z * Z)) (mids eids : list Z) :
  forall tbl tbl',
    insert_edge_rows edges mids eids tbl = Ok tbl' ->
    forall x, x ∈ edges -> x ∈ tbl'.
Proof.
  induction edges as [|e edges IH]; intros tbl tbl' H x Hx; [inversion Hx|].
  pose proof (insert_edge_rows_spec _ _ _ _ _ H) as (Hsub & _).
  cbn [insert_edge_rows] in H.
  destruct (decide (e ∈ tbl)) as [Hin | Hnin].
  - rewrite bool_decide_eq_true_2 in H by exact Hin.
    apply elem_of_cons in Hx as [-> | Hx]; [apply Hsub, Hin | eapply IH; eauto].
  - rewrite bool_decide_eq_false_2 in H by exact Hnin.
    destruct (bool_decide (e.1 ∈ mids) && bool_decide (e.2 ∈ eids));
      [|discriminate].
    apply elem_of_cons in Hx as [-> | Hx]; [|eapply IH; eauto].
    pose proof (insert_edge_rows_spec _ _ _ _ _ H) as (Hsub' & _).
    apply Hsub', elem_of_app. right. apply list_elem_of_here.
Qed.

Lemma edge_pages_covers c (pages : list (list (Z * Z))) :
  forall i s s1,
    run_pages (insert_edges_statement c) NoFault i pages tt s = (Ok tt, s1) ->
    (forall x, x ∈ joins (working s) c -> x ∈ joins (working s1) c)
    /\ forall page e, page ∈ pages -> e ∈ page -> e ∈ joins (working s1) c.
Proof.
  induction pages as [|page pages IH]; intros i s s1 H.
  - cbn in H. injection H as <-. split; [auto|].
    intros page e Hp. inversion Hp.
  - cbn [run_pages] in H. destruct page as [|a page]; [discriminate|].
    cbn [fails_at] in H. unfold bind, insert_edges_statement at 1 in H.
    destruct (insert_edge_rows (a :: page) (map t_id (movies (working s)))
                (map fst (reference (working s) c)) (joins (working s) c))
      as [tbl|] eqn:E; [|discriminate].
    apply IH in H as [Hgrow Hcov]. cbn in Hgrow. unfold update in Hgrow.
    destruct (decide (c = c)); [|congruence].
    pose proof (insert_edge_rows_spec _ _ _ _ _ E) as (Hsub & _).
    split.
    + intros x Hx. apply Hgrow, Hsub, Hx.
    + intros pg e0 Hpg He. apply elem_of_cons in Hpg as [-> | Hpg].
      * apply Hgrow. eapply insert_edge_rows_covers; eauto.
      * eapply Hcov; eauto.
Qed.

Lemma insert_edge_rows_skip (edges : list (Z * Z)) (mids eids : list Z)
  (tbl : list (Z * Z)) :
  (forall e, e ∈ edges -> e ∈ tbl) ->
  insert_edge_rows edges mids eids tbl = Ok tbl.
Proof.
  induction edges as [|e edges IH]; intros H; [reflexivity|].
  cbn [insert_edge_rows].
  rewrite bool_decide_eq_true_2 by apply H, list_elem_of_here.
  apply IH. intros x Hx. apply H, list_elem_of_further, Hx.
Qed.

Lemma edge_pages_skip c (pages : list (list (Z * Z))) :
  forall i s,
    (forall page, page ∈ pages -> page <> []) ->
    (forall page e, page ∈ pages -> e ∈ page -> e ∈ joins (working s) c) ->
    exists s',
      run_pages (insert_edges_statement c) NoFault i pages tt s = (Ok tt, s')
      /\ joins (working s') c = joins (working s) c.
Proof.
  induction pages as [|page pages IH]; intros i s Hne Hall.
  - exists s. split; reflexivity.
  - cbn [run_pages].
    assert (Hhead : page ∈ page :: pages) by apply list_elem_of_here.
    destruct page as [|a page]; [destruct (Hne [] Hhead); reflexivity|].
    cbn [fails_at]. unfold bind, insert_edges_statement at 1.
    rewrite insert_edge_rows_skip by (intros e He; eapply Hall; eauto).
    match goal with
    | |- context [run_pages _ _ _ pages tt ?x] => set (s1 := x)
    end.
    assert (Hs1 : joins (working s1) c = joins (working s) c).
    { subst s1. cbn. unfold update.
      destruct (decide (c = c)); [reflexivity | congruence]. }
    destruct (IH (S i) s1) as (s' & E & Hj).
    + intros pg Hpg. apply Hne, list_elem_of_further, Hpg.
    + intros pg e Hpg He. rewrite Hs1.
      eapply Hall; [apply list_elem_of_further|]; eauto.
    + exists s'. split; [exact E | congruence].
Qed.

(** X10. Inserting the same relationships again adds no edge: after a
    relationship insert without storage fault, a second insert of the same
    list with the same valid movies leaves every join table as the first
    call left it. *)
Theorem relationships_second_call bs rels c valid s :
  clean s ->
  forall c',
    joins (committed
             (batch_insert_relationships bs NoFault rels c valid
                (batch_insert_relationships bs NoFault rels c valid s))) c'
    = joins (committed (batch_insert_relationships bs NoFault rels c valid s))
        c'.
Proof.
  intros Hc c'.
  pose proof (batch_insert_relationships_frame bs NoFault rels c valid s Hc)
    as (C1 & _ & M1 & R1 & _). cbn zeta in C1, M1, R1.
  destruct (decide (c' = c)) as [-> | Hne].
  2: { destruct (batch_insert_relationships_frame bs NoFault rels c valid _ C1)
         as (_ & _ & _ & _ & J). apply J, Hne. }
  destruct (batch_insert_relationships_cases bs NoFault rels c valid s)
    as (r & s1 & E & H).
  destruct H as [(Hs1 & [-> | Hf]) | (-> & _ & Hs1)]; [| discriminate |].
  - pose proof (edge_pages_frame _ _ _ _ _ _ _ _ E) as (Ecom & _).
    assert (Hj : joins (committed
                          (batch_insert_relationships bs NoFault rels c valid
                             s)) c = joins (committed s) c)
      by (rewrite Hs1; cbn; rewrite Ecom; reflexivity).
    symmetry.
    rewrite (batch_insert_relationships_local bs NoFault rels c valid s
               (batch_insert_relationships bs NoFault rels c valid s));
      auto; congruence.
  - assert (Hbs : (0 < bs)%nat).
    { destruct bs; [|lia]. rewrite execute_values_zero in E. discriminate. }
    unfold execute_values in E. apply edge_pages_covers in E as [_ Hcov].
    set (s2 := batch_insert_relationships bs NoFault rels c valid s) in *.
    unfold clean in C1.
    destruct (edge_pages_skip c
                (paginate
                   (List.filter (fun rel => bool_decide (rel.1 ∈ valid)) rels)
                   bs) 0 s2) as (s' & E' & Hj).
    + intros page Hp. eapply paginate_nonempty; eauto.
    + intros page e Hp He. rewrite C1, Hs1. cbn. eapply Hcov; eauto.
    + unfold batch_insert_relationships at 1, bind, execute_values.
      rewrite E'. cbn. rewrite Hj, C1. reflexivity.
Qed.

Lemma relationships_second_call_witness :
  joins (committed
           (batch_insert_relationships 1 NoFault [(1, 1); (1, 2); (9, 1)]
              Genre {[ 1 ]}
              (batch_insert_relationships 1 NoFault [(1, 1); (1, 2); (9, 1)]
                 Genre {[ 1 ]} (connect loaded)))) Genre
  = joins (committed
             (batch_insert_relationships 1 NoFault [(1, 1); (1, 2); (9, 1)]
                Genre {[ 1 ]} (connect loaded))) Genre.
Proof.
  apply (relationships_second_call 1 [(1, 1); (1, 2); (9, 1)] Genre {[ 1 ]}
           (connect loaded)).
  reflexivity.
Defined.

(** ** Degenerate runs *)

Lemma batch_insert_data_zero f data c s :
  clean s -> committed (batch_insert_data 0 f data c s).2 = committed s.
Proof.
  intros Hc. destruct (batch_insert_data 0 f data c s) as [m s'] eqn:E.
  cbn [snd]. apply batch_insert_data_cases in E
    as [(_ & _ & ->) | [(_ & _ & _ & ->) | (_ & _ & r & s1 & E & H)]];
    [reflexivity | reflexivity |].
  rewrite execute_values_zero in E. injection E as <- <-.
  destruct H as [(_ & -> & _) | (returned & Hr & _)];
    [reflexivity | discriminate].
Qed.

(** X11. With a page size of zero a run imports nothing: the movie upsert
    returns the empty set and the movie table, the reference tables and the
    join tables are left as they were, whatever the frame. *)
Theorem zero_page_size_imports_nothing cy fl raw st :
  valid_movie_ids (batch_import_movies cy 0 fl raw st) = ∅
  /\ movies (tables (outcome (batch_import_movies cy 0 fl raw st)))
     = movies (tables st)
  /\ forall c,
       reference (tables (outcome (batch_import_movies cy 0 fl raw st))) c
       = reference (tables st) c
       /\ joins (tables (outcome (batch_import_movies cy 0 fl raw st))) c
          = joins (tables st) c.
Proof.
  destruct (run_movies cy 0 fl raw st) as (s1 & E1 & Hm).
  unfold batch_insert_movies, bind in E1.
  rewrite execute_values_zero in E1. injection E1 as Hv <-.
  symmetry in Hv. split; [exact Hv|]. split; [rewrite Hm; reflexivity|].
  intros c. split.
  - destruct (run_outcome_frame cy 0 fl raw st) as [_ ->].
    destruct (run_resolution cy 0 fl raw st c) as (s0 & C0 & R0 & _ & _ & ->).
    rewrite batch_insert_data_zero by exact C0. exact R0.
  - apply movie_gated_linking_core, Hv.
Qed.

Lemma batch_insert_data_empty bs f (data : gset string) c s :
  data = ∅ ->
  clean s ->
  committed (batch_insert_data bs f data c s).2 = committed s.
Proof.
  intros -> Hc. destruct (batch_insert_data bs f ∅ c s) as [m s'] eqn:E.
  cbn [snd]. apply batch_insert_data_cases in E
    as [(_ & _ & ->) | [(_ & _ & _ & ->) | (_ & Hn & _)]];
    [reflexivity | reflexivity |].
  destruct Hn. unfold new_values. rewrite elements_empty. reflexivity.
Qed.

Lemma batch_insert_relationships_nothing bs f rels c (valid : gset Z) s :
  List.filter (fun rel => bool_decide (rel.1 ∈ valid)) rels = [] ->
  clean s ->
  committed (batch_insert_relationships bs f rels c valid s) = committed s.
Proof.
  intros Hnil Hc. unfold clean in Hc.
  destruct (batch_insert_relationships_cases bs f rels c valid s)
    as (r & s1 & E & H).
  rewrite Hnil in E. destruct bs as [|bs].
  - rewrite execute_values_zero in E. injection E as <- <-.
    destruct H as [(-> & _) | (? & _)]; [reflexivity | discriminate].
  - rewrite execute_values_nil in E by lia. injection E as <- <-.
    destruct H as [(-> & _) | (_ & _ & ->)]; cbn; auto.
Qed.

Lemma link_all_nothing bs fl (valid : gset Z) rels (cs : list category) :
  (forall c, rels c = []) ->
  forall s,
    clean s ->
    committed (foldl (fun s c =>
                        batch_insert_relationships bs
                          (relationships_fault fl c) (rels c) c valid s)
                     s cs)
    = committed s.
Proof.
  intros Hnil. induction cs as [|c0 cs IH]; intros s Hc; [reflexivity|].
  cbn [foldl]. rewrite IH.
  - apply batch_insert_relationships_nothing; [|exact Hc].
    rewrite Hnil. reflexivity.
  - apply batch_insert_relationships_frame, Hc.
Qed.

(** X12. When no record of the frame passes the recency filter, a run
    leaves the movie table, the reference tables and the join tables as
    they were, whatever the faults. *)
Theorem empty_frame_leaves_store cy bs fl raw st :
  recency_filter cy raw = [] ->
  movies (tables (outcome (batch_import_movies cy bs fl raw st)))
  = movies (tables st)
  /\ forall c,
       reference (tables (outcome (batch_import_movies cy bs fl raw st))) c
       = reference (tables st) c
       /\ joins (tables (outcome (batch_import_movies cy bs fl raw st))) c
          = joins (tables st) c.
Proof.
  intros Hempty.
  destruct (run_steps cy bs fl raw st)
    as (s1 & g & s2 & co & s3 & cu & s4 & l & s5 & k & _ & _ & _ & _ & _
        & _ & Hf & Hp & _ & Hrels).
  rewrite Hempty in Hf, Hp, Hrels.
  split.
  - destruct (run_outcome_frame cy bs fl raw st) as [-> _].
    destruct (run_linking cy bs fl raw st) as (_ & _ & (extra & -> & Hex) & _).
    destruct extra as [|x extra]; [apply app_nil_r|].
    destruct (Hex x) as [Hin _]; [apply list_elem_of_here|].
    rewrite Hp in Hin. inversion Hin.
  - intros c. split.
    + destruct (run_outcome_frame cy bs fl raw st) as [_ ->].
      destruct (run_resolution cy bs fl raw st c) as (s0 & C0 & R0 & _ & _ & ->).
      rewrite batch_insert_data_empty; [exact R0 | | exact C0].
      rewrite Hp. reflexivity.
    + pose proof (run_outcome cy bs fl raw st) as Ho. cbn zeta in Ho.
      rewrite Ho, Hrels. cbn [build_relationships close tables].
      unfold link_all. destruct (run_linking cy bs fl raw st) as (Hc & Hj & _).
      rewrite link_all_nothing; [rewrite Hj; reflexivity | auto | exact Hc].
Qed.

Lemma empty_frame_leaves_store_witness :
  movies (tables (outcome
            (batch_import_movies 2040 1000 genres_down [heat; alien] loaded)))
  = movies (tables loaded).
Proof.
  destruct (empty_frame_leaves_store 2040 1000 genres_down [heat; alien]
              loaded) as [H _].
  - reflexivity.
  - exact H.
Defined.

(** ** What a run hands over and resolves *)

(** X13. The tuples handed to the movie upsert are exactly the tuples of the
    records that pass the recency filter and the test of line 158, in the
    order of the frame and with repetitions kept: no such record is left
    out. *)
Theorem prepared_movies_exactly cy bs fl raw st :
  movies_list (prepared (batch_import_movies cy bs fl raw st))
  = map movie_tuple
      (List.filter admissible (List.filter (recent cy) raw)).
Proof.
  destruct (run_steps cy bs fl raw st)
    as (s1 & g & s2 & co & s3 & cu & s4 & l & s5 & k & _ & _ & _ & _ & _
        & _ & _ & -> & _).
  apply collect_movies.
Qed.

(** X14. Whatever the faults, every entry of a mapping a run resolves is a
    row of the category's reference table as the run leaves it: a key is
    never mapped to an identifier that is not persisted for it. *)
Theorem mappings_hold_table_rows cy bs fl raw st c k v :
  id_mappings (batch_import_movies cy bs fl raw st) c !! k = Some v ->
  (v, k) ∈ reference (tables (outcome (batch_import_movies cy bs fl raw st))) c.
Proof.
  intros H. destruct (run_outcome_frame cy bs fl raw st) as [_ ->].
  destruct (run_linking cy bs fl raw st) as (_ & _ & _ & _ & Hs).
  apply Hs, H.
Qed.

Lemma mappings_hold_table_rows_witness :
  (2, "Drama")
    ∈ reference (tables (outcome
                   (batch_import_movies 2025 1 no_faults [heat] empty_store)))
        Genre.
Proof.
  apply (mappings_hold_table_rows 2025 1 no_faults [heat] empty_store Genre
           "Drama" 2).
  vm_compute. reflexivity.
Defined.

(** X15. The resolution of a category depends on the run's faults through
    its own fault only: two runs on the same frame and store that give the
    category's resolution the same fault compute the same mapping for it and
    leave the same reference table, even if the movie upsert, the other
    resolutions or the relationship inserts fail in one run and not in the
    other. *)
Theorem resolution_depends_on_own_fault cy bs fl fl' raw st c :
  data_fault fl c = data_fault fl' c ->
  id_mappings (batch_import_movies cy bs fl raw st) c
  = id_mappings (batch_import_movies cy bs fl' raw st) c
  /\ reference (tables (outcome (batch_import_movies cy bs fl raw st))) c
     = reference (tables (outcome (batch_import_movies cy bs fl' raw st))) c.
Proof.
  intros Hf.
  destruct (run_outcome_frame cy bs fl raw st) as [_ ->].
  destruct (run_outcome_frame cy bs fl' raw st) as [_ ->].
  destruct (run_resolution cy bs fl raw st c)
    as (s0 & C0 & R0 & Q0 & -> & ->).
  destruct (run_resolution cy bs fl' raw st c)
    as (s0' & C0' & R0' & Q0' & -> & ->).
  assert (Hp : prepared (batch_import_movies cy bs fl raw st)
               = prepared (batch_import_movies cy bs fl' raw st)).
  { destruct (run_steps cy bs fl raw st)
      as (? & ? & ? & ? & ? & ? & ? & ? & ? & ? & _ & _ & _ & _ & _ & _ & _
          & -> & _).
    destruct (run_steps cy bs fl' raw st)
      as (? & ? & ? & ? & ? & ? & ? & ? & ? & ? & _ & _ & _ & _ & _ & _ & _
          & -> & _).
    reflexivity. }
  rewrite Hp, Hf.
  destruct (batch_insert_data_local bs (data_fault fl' c)
              (all_values (prepared (batch_import_movies cy bs fl' raw st)) c)
              c s0 s0' C0 C0') as (H1 & H2 & _); [congruence | congruence |].
  auto.
Qed.

Lemma resolution_depends_on_own_fault_witness :
  id_mappings (batch_import_movies 2025 1000 movies_down [heat; alien] loaded)
    Keyword
  = id_mappings (batch_import_movies 2025 1000 genres_down [heat; alien]
                   loaded) Keyword.
Proof.
  apply (resolution_depends_on_own_fault 2025 1000 movies_down genres_down
           [heat; alien] loaded Keyword).
  reflexivity.
Defined.

(** ** Witnesses of the page lemmas *)

Lemma resolver_mapping_bounded_witness :
  (size (batch_insert_data 1 NoFault two_genres Genre
           (connect empty_store)).1 <= 1)%nat.
Proof.
  apply (resolver_mapping_bounded 1 two_genres Genre (connect empty_store));
    [lia | reflexivity | reflexivity].
Defined.

Lemma resolver_complete_one_page_witness :
  exists id,
    (batch_insert_data 1000 NoFault two_genres Genre (connect empty_store)).1
      !! "Action" = Some id
    /\ (id, "Action")
         ∈ reference
             (committed
                (batch_insert_data 1000 NoFault two_genres Genre
                   (connect empty_store)).2) Genre.
Proof.
  apply (resolver_complete_one_page 1000 two_genres Genre
           (connect empty_store)).
  - reflexivity.
  - vm_compute. lia.
  - apply (bool_decide_unpack _). vm_compute. exact I.
Defined.
